(** * australia.py: relocation of animals across Australian states

    A shallow embedding of [src/australia.py] and the properties of its
    loader and of its greedy placement pass.

    Conventions of the embedding.
    - A Python [str] is a Rocq [string] holding its UTF-8 encoding (the data
      file is opened with [encoding='utf-8']); equality of Python strings is
      equality of these byte strings.
    - Python objects live in a store, [list FictionalAnimal], and a Python
      reference is an index into it.  The list [animals] handed to
      [relocate_animals] is a list of references, so the same object may occur
      in it more than once, and [set_state] on one reference is seen through
      every alias.
    - A computation that can raise returns [option]: [None] stands for a
      raised [KeyError] (a lookup in a dict that lacks the key) or for a
      reference that names no object, which no Python program can build.
    - [break] and [continue] of the two nested [for] loops become the
      branches of two recursive functions over the rest of the iteration. *)

From Stdlib Require Import Ascii.
From stdpp Require Import gmap strings list fin_maps.

Open Scope string_scope.

(** * The program *)

(** ** Python string methods used by the program *)

Module Str.

Definition code (c : ascii) : N := N_of_ascii c.

(** [str.isspace] on one ASCII character: U+0009..U+000D, U+001C..U+0020. *)
Definition space1 (a : ascii) : bool :=
  let n := code a in
  (((9 <=? n) && (n <=? 13)) || ((28 <=? n) && (n <=? 32)))%N.

(** Two-byte encodings of whitespace: U+0085 and U+00A0. *)
Definition space2 (a b : ascii) : bool :=
  ((code a =? 194) && ((code b =? 133) || (code b =? 160)))%N.

(** Three-byte encodings of whitespace: U+1680, U+2000..U+200A, U+2028,
    U+2029, U+202F, U+205F and U+3000. *)
Definition space3 (a b c : ascii) : bool :=
  let x := code a in let y := code b in let z := code c in
  (((x =? 225) && (y =? 154) && (z =? 128))
   || ((x =? 226) && (y =? 128)
       && (((128 <=? z) && (z <=? 138)) || (z =? 168) || (z =? 169) || (z =? 175)))
   || ((x =? 226) && (y =? 129) && (z =? 159))
   || ((x =? 227) && (y =? 128) && (z =? 128)))%N.

(** Drops whitespace characters from the front of [s].  With [back] set,
    [s] is a reversed string and the bytes of a character come last byte
    first. *)
Fixpoint lstrip_gen (back : bool) (s : string) : string :=
  match s with
  | EmptyString => EmptyString
  | String a s1 =>
      if space1 a then lstrip_gen back s1
      else match s1 with
           | EmptyString => s
           | String b s2 =>
               if (if back then space2 b a else space2 a b) then lstrip_gen back s2
               else match s2 with
                    | EmptyString => s
                    | String c s3 =>
                        if (if back then space3 c b a else space3 a b c)
                        then lstrip_gen back s3
                        else s
                    end
           end
  end.

Definition lstrip (s : string) : string := lstrip_gen false s.

Definition rstrip (s : string) : string :=
  String.rev (lstrip_gen true (String.rev s)).

(** [s.strip()] *)
Definition strip (s : string) : string := rstrip (lstrip s).

(** [s.split(sep)] for a separator of one character. *)
Fixpoint split (sep : ascii) (s : string) : list string :=
  match s with
  | EmptyString => [EmptyString]
  | String c r =>
      if bool_decide (c = sep) then EmptyString :: split sep r
      else match split sep r with
           | w :: ws => String c w :: ws
           | [] => [String c EmptyString]
           end
  end.

(** [s.count(c)] for one character. *)
Fixpoint count (c : ascii) (s : string) : nat :=
  match s with
  | EmptyString => 0
  | String a r => (if bool_decide (a = c) then 1 else 0) + count c r
  end.

End Str.

(** ** Topology: the module-level tables *)

Definition ADJACENT_STATES : gmap string (list string) :=
  list_to_map
    [ ("NSW", ["QLD"; "VIC"; "SA"]);
      ("QLD", ["NSW"; "NT"; "SA"]);
      ("VIC", ["NSW"; "SA"]);
      ("TAS", []);
      ("SA", ["WA"; "NT"; "QLD"; "NSW"; "VIC"]);
      ("NT", ["WA"; "QLD"; "SA"]);
      ("WA", ["NT"; "SA"]) ].

Definition VALID_STATES : list string :=
  ["NSW"; "QLD"; "VIC"; "TAS"; "SA"; "NT"; "WA"].

(** ** class FictionalAnimal *)

Record FictionalAnimal : Type := mkFictionalAnimal {
  name : string;
  habitat : string;
  threat : string;
  state : string
}.

(** The state every animal starts in: not yet relocated. *)
Definition ACT : string := "ACT".

(** [FictionalAnimal.__init__] *)
Definition __init__ (name0 habitat0 threat0 : string) : FictionalAnimal :=
  {| name := Str.strip name0;
     habitat := Str.strip habitat0;
     threat := Str.strip threat0;
     state := ACT |}.

(** [FictionalAnimal.get_state] *)
Definition get_state (self : FictionalAnimal) : string := state self.

(** [FictionalAnimal.set_state] *)
Definition set_state (self : FictionalAnimal) (state0 : string) : FictionalAnimal :=
  if bool_decide (state0 ∈ VALID_STATES)
  then {| name := name self; habitat := habitat self; threat := threat self;
          state := state0 |}
  else self.

(** ** FictionalAnimal.load_dataset

    The file system is the argument: [None] when [animals.csv] does not
    exist, [Some lines] with the decoded lines of the file otherwise. *)

(** The body of [for line in f], with the list built so far. *)
Fixpoint read_lines (lines : list string) (animals : list FictionalAnimal)
  : list FictionalAnimal :=
  match lines with
  | [] => animals
  | line :: rest =>
      let parts := Str.split "," (Str.strip line) in
      if negb (length parts =? 3)%nat then read_lines rest animals
      else match parts with
           | [name0; habitat0; threat0] =>
               read_lines rest (animals ++ [__init__ name0 habitat0 threat0])
           | _ => read_lines rest animals
           end
  end.

Definition load_dataset (file : option (list string)) : list FictionalAnimal :=
  match file with
  | None => []
  | Some lines => read_lines lines []
  end.

(** ** relocate_animals *)

(** The store and the two local variables of [relocate_animals]. *)
Record engine : Type := mkEngine {
  heap : list FictionalAnimal;
  occupied_states : gmap string nat;
  placed_animals : gset string
}.

(** First check: is this animal's threat already in an adjacent state? *)
Fixpoint threat_adjacent (σ : engine) (adjacent : list string)
    (animal : FictionalAnimal) : option bool :=
  match adjacent with
  | [] => Some false
  | adj :: rest =>
      match occupied_states σ !! adj with
      | Some r =>
          other ← heap σ !! r;
          if bool_decide (name other = threat animal) then Some true
          else threat_adjacent σ rest animal
      | None => threat_adjacent σ rest animal
      end
  end.

(** Second check: is this animal the threat of a neighbour? *)
Fixpoint reverse_threat (σ : engine) (adjacent : list string)
    (animal : FictionalAnimal) : option bool :=
  match adjacent with
  | [] => Some false
  | adj :: rest =>
      match occupied_states σ !! adj with
      | Some r =>
          other_animal ← heap σ !! r;
          if bool_decide (threat other_animal = name animal) then Some true
          else reverse_threat σ rest animal
      | None => reverse_threat σ rest animal
      end
  end.

(** The three statements that place the animal referred to by [r]. *)
Definition place (σ : engine) (state0 : string) (r : nat) (animal : FictionalAnimal)
  : engine :=
  {| heap := <[r := set_state animal state0]> (heap σ);
     occupied_states := <[state0 := r]> (occupied_states σ);
     placed_animals := {[name animal]} ∪ placed_animals σ |}.

(** [for animal in animals], for one [state]. *)
Fixpoint for_animal (state0 : string) (animals : list nat) (σ : engine)
  : option engine :=
  match animals with
  | [] => Some σ
  | r :: rest =>
      animal ← heap σ !! r;
      if bool_decide (name animal ∈ placed_animals σ) then for_animal state0 rest σ
      else if bool_decide (state0 ∈ dom (occupied_states σ)) then Some σ
      else
        adjacent ← ADJACENT_STATES !! state0;
        c1 ← threat_adjacent σ adjacent animal;
        if c1 : bool then for_animal state0 rest σ
        else
          c2 ← reverse_threat σ adjacent animal;
          if c2 : bool then for_animal state0 rest σ
          else Some (place σ state0 r animal)
  end.

(** [for state in VALID_STATES], from the state [states] on. *)
Fixpoint for_state (states : list string) (animals : list nat) (σ : engine)
  : option engine :=
  match states with
  | [] => Some σ
  | state0 :: rest =>
      σ' ← for_animal state0 animals σ;
      for_state rest animals σ'
  end.

Definition start (h : list FictionalAnimal) : engine :=
  {| heap := h; occupied_states := ∅; placed_animals := ∅ |}.

Definition relocate_animals (h : list FictionalAnimal) (animals : list nat)
  : option engine :=
  for_state VALID_STATES animals (start h).

(** [main] up to the call of [relocate_animals]: the loaded objects are the
    store, in order of creation, and [animals] refers to each of them once. *)
Definition main (file : option (list string)) : option engine :=
  let h := load_dataset file in
  relocate_animals h (seq 0 (length h)).

(** ** Vocabulary of the statements *)

(** [ADJACENT_STATES[s]], empty for a key the table lacks. *)
Definition adjacent_of (s : string) : list string :=
  default [] (ADJACENT_STATES !! s).

(** Every reference of [animals] names an object of the store. *)
Definition refs_ok (h : list FictionalAnimal) (animals : list nat) : Prop :=
  Forall (λ r, r < length h) animals.

(** The object [a] is the one placed in state [s]. *)
Definition occupant (σ : engine) (s : string) (a : FictionalAnimal) : Prop :=
  ∃ r, occupied_states σ !! s = Some r ∧ heap σ !! r = Some a.

(** Both checks of [relocate_animals] pass for the candidate [a] against the
    placed neighbour [o]: [o] is not the threat of [a] (forward) and [a] is
    not the threat of [o] (reverse). *)
Definition checks_pass (o a : FictionalAnimal) : Prop :=
  name o ≠ threat a ∧ threat o ≠ name a.

(** The two objects agree on the fields that a run never writes. *)
Definition same_identity (a b : FictionalAnimal) : Prop :=
  name a = name b ∧ habitat a = habitat b ∧ threat a = threat b.

(** The class invariant of [state]: the initial value or a valid state. *)
Definition state_ok (a : FictionalAnimal) : Prop :=
  state a = ACT ∨ state a ∈ VALID_STATES.

(** Puts every object back to the initial state. *)
Definition reset (h : list FictionalAnimal) : list FictionalAnimal :=
  (λ a, {| name := name a; habitat := habitat a; threat := threat a;
           state := ACT |}) <$> h.

(** The two objects differ at most in [habitat]. *)
Definition same_but_habitat (a b : FictionalAnimal) : Prop :=
  name a = name b ∧ threat a = threat b ∧ state a = state b.

(** Every placed reference names an object of the store. *)
Definition occupants_live (σ : engine) : Prop :=
  ∀ s r, occupied_states σ !! s = Some r → is_Some (heap σ !! r).

(** Both checks are one scan of the neighbours with a different test. *)
Fixpoint scan_adjacent (σ : engine) (test : FictionalAnimal → bool)
    (adjacent : list string) : option bool :=
  match adjacent with
  | [] => Some false
  | adj :: rest =>
      match occupied_states σ !! adj with
      | Some r =>
          other ← heap σ !! r;
          if test other then Some true else scan_adjacent σ test rest
      | None => scan_adjacent σ test rest
      end
  end.

(** What [for animal in animals] can do to the engine: nothing, or place
    one animal of the list whose name is not yet placed, in a free state,
    after both checks passed against every occupied neighbour. *)
Inductive outcome (s : string) (rest : list nat) (σ : engine) : engine → Prop :=
  | nothing_placed : outcome s rest σ σ
  | one_placed (r : nat) (a : FictionalAnimal) :
      r ∈ rest →
      heap σ !! r = Some a →
      name a ∉ placed_animals σ →
      occupied_states σ !! s = None →
      (∀ adj o, adj ∈ adjacent_of s → occupant σ adj o → checks_pass o a) →
      outcome s rest σ (place σ s r a).

(** The invariant of the outer loop: [h0] is the store at the call,
    [animals] the argument, [done] the states whose iteration is over. *)
Record inv (h0 : list FictionalAnimal) (animals : list nat) (done : list string)
    (σ : engine) : Prop := mkInv {
  inv_length : length (heap σ) = length h0;
  inv_identity : ∀ r a, heap σ !! r = Some a →
    ∃ a0, h0 !! r = Some a0 ∧ same_identity a a0;
  inv_dom : ∀ s r, occupied_states σ !! s = Some r → s ∈ done;
  inv_occupied : ∀ s r, occupied_states σ !! s = Some r →
    r ∈ animals ∧ ∃ a, heap σ !! r = Some a ∧ state a = s ∧ name a ∈ placed_animals σ;
  inv_placed : ∀ n, n ∈ placed_animals σ → ∃ s a, occupant σ s a ∧ name a = n;
  inv_names : ∀ s t a b, occupant σ s a → occupant σ t b → name a = name b → s = t;
  inv_state : ∀ r a, heap σ !! r = Some a →
    h0 !! r = Some a ∨ occupied_states σ !! state a = Some r;
  inv_free : ∀ s t a b, occupant σ s a → occupant σ t b →
    t ∈ adjacent_of s ∨ s ∈ adjacent_of t →
    threat a ≠ name b ∧ threat b ≠ name a
}.

(** What the iterations for [states] leave alone: entries of
    [occupied_states] are never overwritten or removed, states outside
    [states] get no occupant, no name leaves [placed_animals], and an object
    whose name is in [placed_animals] is not written. *)
Record grows (states : list string) (σ σ' : engine) : Prop := mkGrows {
  grows_occupied : ∀ t r, occupied_states σ !! t = Some r →
    occupied_states σ' !! t = Some r;
  grows_frame : ∀ t, t ∉ states → occupied_states σ' !! t = occupied_states σ !! t;
  grows_placed : placed_animals σ ⊆ placed_animals σ';
  grows_heap : ∀ r a, heap σ !! r = Some a → name a ∈ placed_animals σ →
    heap σ' !! r = Some a
}.

(** Every object that [animals] refers to is in the initial state. *)
Definition fresh (h : list FictionalAnimal) (animals : list nat) : Prop :=
  ∀ r a, r ∈ animals → h !! r = Some a → state a = ACT.

(** Two engines that differ at most in the habitats of their objects. *)
Definition same_placement (σ1 σ2 : engine) : Prop :=
  Forall2 same_but_habitat (heap σ1) (heap σ2)
  ∧ occupied_states σ1 = occupied_states σ2
  ∧ placed_animals σ1 = placed_animals σ2.

(** The comma-delimited fields of a record. *)
Definition fields (line : string) : list string :=
  Str.split "," (Str.strip line).

(** The entity of a record of exactly three fields, none for any other
    record. *)
Definition entity_of_record (line : string) : option FictionalAnimal :=
  match fields line with
  | [name0; habitat0; threat0] => Some (__init__ name0 habitat0 threat0)
  | _ => None
  end.

(** The scan of [animals] for the free state [s] reaches the checks for the
    unplaced object [d], turns it down on the second check and not on the
    first, and places nobody. *)
Definition rejected_by_reverse_check (σ : engine) (s : string) (animals : list nat)
    (d : FictionalAnimal) : Prop :=
  (∃ r, r ∈ animals ∧ heap σ !! r = Some d)
  ∧ (name d ∉ placed_animals σ)
  ∧ occupied_states σ !! s = None
  ∧ threat_adjacent σ (adjacent_of s) d = Some false
  ∧ reverse_threat σ (adjacent_of s) d = Some true
  ∧ for_animal s animals σ = Some σ.

(** ** The rest of the program: display and report *)

Definition newline : string := String (ascii_of_nat 10) EmptyString.

(** [FictionalAnimal.__str__] *)
Definition __str__ (self : FictionalAnimal) : string :=
  name self ++ newline
  ++ "   Habitat : " ++ habitat self ++ newline
  ++ "   Threat  : " ++ threat self ++ newline
  ++ "   State   : " ++ state self.

(** [sum(1 for a in animals if a.get_state() != 'ACT')], over the objects
    that [animals] refers to. *)
Fixpoint relocated (animals : list FictionalAnimal) : nat :=
  match animals with
  | [] => 0
  | a :: rest =>
      (if bool_decide (get_state a ≠ ACT) then 1 else 0) + relocated rest
  end.


(** ** More vocabulary *)

(** [sep.join(l)] *)
Fixpoint join (sep : string) (l : list string) : string :=
  match l with
  | [] => ""
  | x :: rest =>
      match rest with
      | [] => x
      | _ :: _ => x ++ sep ++ join sep rest
      end
  end.

(** One of the two checks fails for the candidate [a] in the state [s]:
    an occupied neighbour of [s] holds the threat of [a], or an animal whose
    threat is [a]. *)
Definition conflicts (σ : engine) (s : string) (a : FictionalAnimal) : Prop :=
  ∃ adj o, adj ∈ adjacent_of s ∧ occupant σ adj o
           ∧ (name o = threat a ∨ threat o = name a).


(** The two objects agree on the two fields that the checks read. *)
Definition same_keys (a b : FictionalAnimal) : Prop :=
  name a = name b ∧ threat a = threat b.

(** Two engines with the same placement, over stores that agree on names
    and threats. *)
Definition same_decisions (σ1 σ2 : engine) : Prop :=
  Forall2 same_keys (heap σ1) (heap σ2)
  ∧ occupied_states σ1 = occupied_states σ2
  ∧ placed_animals σ1 = placed_animals σ2.

(** The byte [c] is no byte of the encoding of a whitespace character. *)
Definition not_space_byte (c : ascii) : Prop :=
  Str.space1 c = false
  ∧ (∀ b, Str.space2 c b = false ∧ Str.space2 b c = false)
  ∧ (∀ a b, Str.space3 c a b = false ∧ Str.space3 a c b = false
            ∧ Str.space3 a b c = false).

(** [s] does not start with a whitespace character. *)
Definition no_space_ahead (back : bool) (s : string) : Prop :=
  match s with
  | EmptyString => True
  | String a s1 =>
      Str.space1 a = false
      ∧ match s1 with
        | EmptyString => True
        | String b s2 =>
            (if back then Str.space2 b a else Str.space2 a b) = false
            ∧ match s2 with
              | EmptyString => True
              | String c _ =>
                  (if back then Str.space3 c b a else Str.space3 a b c) = false
              end
        end
  end.

(** ** Stores used to instantiate the statements *)

Definition Koala (habitat0 : string) : FictionalAnimal :=
  {| name := "Koala"; habitat := habitat0; threat := "Dingo"; state := ACT |}.

Definition Dingo (habitat0 : string) : FictionalAnimal :=
  {| name := "Dingo"; habitat := habitat0; threat := ""; state := ACT |}.

(** The store of three animals used to instantiate the general statements:
    Koala fears Dingo, and Wombat and Dingo fear nobody. *)
Definition Wombat : FictionalAnimal :=
  {| name := "Wombat"; habitat := "Grassland"; threat := ""; state := ACT |}.

Definition three_animals : list FictionalAnimal :=
  [Koala "Forest"; Dingo "Desert"; Wombat].

(** The three animals again, each in another habitat. *)
Definition three_animals_moved : list FictionalAnimal :=
  [Koala "Zoo"; Dingo "Outback"; {| name := "Wombat"; habitat := "Burrow";
                                    threat := ""; state := ACT |}].

Ltac by_computation :=
  first [ by vm_compute | apply (bool_decide_unpack _); by vm_compute ].

(** * Properties *)

(** ** The tables *)

Lemma VALID_STATES_NoDup : NoDup VALID_STATES.
Proof. apply (bool_decide_unpack _). vm_compute. exact I. Qed.

Lemma ACT_not_valid : ACT ∉ VALID_STATES.
Proof. apply (bool_decide_unpack _). vm_compute. exact I. Qed.

Lemma VALID_STATES_adjacent (s : string) :
  s ∈ VALID_STATES → ADJACENT_STATES !! s = Some (adjacent_of s).
Proof.
  intros Hs. unfold adjacent_of.
  assert (H : Forall (λ s, is_Some (ADJACENT_STATES !! s)) VALID_STATES).
  { apply (bool_decide_unpack _). vm_compute. exact I. }
  rewrite Forall_forall in H. destruct (H s Hs) as [l ->]. reflexivity.
Qed.

Lemma adjacent_of_sym (s t : string) :
  t ∈ adjacent_of s → s ∈ adjacent_of t.
Proof.
  intros Ht.
  assert (H : map_Forall (λ s ls, Forall (λ t, s ∈ adjacent_of t) ls) ADJACENT_STATES).
  { apply (bool_decide_unpack _). vm_compute. exact I. }
  unfold adjacent_of in Ht at 1.
  destruct (ADJACENT_STATES !! s) as [ls|] eqn:Hs; simpl in Ht.
  - specialize (H s ls Hs). rewrite Forall_forall in H. auto.
  - by apply elem_of_nil in Ht.
Qed.

Lemma adjacent_of_irrefl (s : string) : s ∉ adjacent_of s.
Proof.
  intros Hs.
  assert (H : map_Forall (λ s ls, s ∉ ls) ADJACENT_STATES).
  { apply (bool_decide_unpack _). vm_compute. exact I. }
  unfold adjacent_of in Hs.
  destruct (ADJACENT_STATES !! s) as [ls|] eqn:E; simpl in Hs.
  - exact (H s ls E Hs).
  - by apply elem_of_nil in Hs.
Qed.

(** ** The two adjacency checks *)

Lemma threat_adjacent_scan σ adjacent animal :
  threat_adjacent σ adjacent animal
  = scan_adjacent σ (λ o, bool_decide (name o = threat animal)) adjacent.
Proof.
  induction adjacent as [|adj rest IH]; simpl; [done|].
  destruct (occupied_states σ !! adj); [|done].
  destruct (heap σ !! _); simpl; [|done]. by rewrite IH.
Qed.

Lemma reverse_threat_scan σ adjacent animal :
  reverse_threat σ adjacent animal
  = scan_adjacent σ (λ o, bool_decide (threat o = name animal)) adjacent.
Proof.
  induction adjacent as [|adj rest IH]; simpl; [done|].
  destruct (occupied_states σ !! adj); [|done].
  destruct (heap σ !! _); simpl; [|done]. by rewrite IH.
Qed.

Lemma scan_adjacent_spec σ test adjacent :
  occupants_live σ →
  ∃ b, scan_adjacent σ test adjacent = Some b
       ∧ (b = true ↔ ∃ adj o, adj ∈ adjacent ∧ occupant σ adj o ∧ test o = true).
Proof.
  intros Hlive. induction adjacent as [|adj rest (b & Hb & IH)]; simpl.
  - exists false. split; [done|]. split; [done|].
    intros (adj & o & Hin & _). by apply elem_of_nil in Hin.
  - destruct (occupied_states σ !! adj) as [r|] eqn:Hocc.
    + destruct (Hlive _ _ Hocc) as [o Ho]. rewrite Ho. simpl.
      destruct (test o) eqn:Ht.
      * exists true. split; [done|]. split; [|done]. intros _.
        exists adj, o. split; [left|]. split; [by exists r|done].
      * exists b. split; [done|]. rewrite IH. split.
        -- intros (adj' & o' & Hin & Hoc & Ht'). exists adj', o'.
           split; [by right|done].
        -- intros (adj' & o' & Hin & Hoc & Ht'). exists adj', o'.
           apply elem_of_cons in Hin as [->|Hin]; [|done].
           destruct Hoc as (r' & Hr' & Ho'). congruence.
    + exists b. split; [done|]. rewrite IH. split.
      * intros (adj' & o' & Hin & Hoc & Ht'). exists adj', o'.
        split; [by right|done].
      * intros (adj' & o' & Hin & Hoc & Ht'). exists adj', o'.
        apply elem_of_cons in Hin as [->|Hin]; [|done].
        destruct Hoc as (r' & Hr' & Ho'). congruence.
Qed.

Lemma threat_adjacent_spec σ adjacent a :
  occupants_live σ →
  ∃ b, threat_adjacent σ adjacent a = Some b
       ∧ (b = false ↔ ∀ adj o, adj ∈ adjacent → occupant σ adj o → name o ≠ threat a).
Proof.
  intros Hlive. rewrite threat_adjacent_scan.
  destruct (scan_adjacent_spec σ (λ o, bool_decide (name o = threat a)) adjacent Hlive)
    as (b & Hb & Hiff).
  exists b. split; [done|]. destruct b.
  - split; [done|]. intros Hall. destruct Hiff as [Hiff _].
    destruct (Hiff eq_refl) as (adj & o & Hin & Hoc & Ht).
    apply bool_decide_eq_true in Ht. by destruct (Hall adj o Hin Hoc).
  - split; [|done]. intros _ adj o Hin Hoc Hn.
    assert (false = true); [|done]. apply Hiff. exists adj, o.
    split; [done|]. split; [done|]. by apply bool_decide_eq_true.
Qed.

Lemma reverse_threat_spec σ adjacent a :
  occupants_live σ →
  ∃ b, reverse_threat σ adjacent a = Some b
       ∧ (b = false ↔ ∀ adj o, adj ∈ adjacent → occupant σ adj o → threat o ≠ name a).
Proof.
  intros Hlive. rewrite reverse_threat_scan.
  destruct (scan_adjacent_spec σ (λ o, bool_decide (threat o = name a)) adjacent Hlive)
    as (b & Hb & Hiff).
  exists b. split; [done|]. destruct b.
  - split; [done|]. intros Hall. destruct Hiff as [Hiff _].
    destruct (Hiff eq_refl) as (adj & o & Hin & Hoc & Ht).
    apply bool_decide_eq_true in Ht. by destruct (Hall adj o Hin Hoc).
  - split; [|done]. intros _ adj o Hin Hoc Hn.
    assert (false = true); [|done]. apply Hiff. exists adj, o.
    split; [done|]. split; [done|]. by apply bool_decide_eq_true.
Qed.

(** ** set_state *)

Lemma set_state_valid (a : FictionalAnimal) (s : string) :
  s ∈ VALID_STATES →
  set_state a s
  = {| name := name a; habitat := habitat a; threat := threat a; state := s |}.
Proof. intros Hs. unfold set_state. by rewrite bool_decide_eq_true_2. Qed.

Lemma set_state_invalid (a : FictionalAnimal) (s : string) :
  s ∉ VALID_STATES → set_state a s = a.
Proof. intros Hs. unfold set_state. by rewrite bool_decide_eq_false_2. Qed.

Lemma set_state_identity (a : FictionalAnimal) (s : string) :
  same_identity (set_state a s) a.
Proof. unfold set_state. by case_bool_decide. Qed.

Lemma set_state_ok (a : FictionalAnimal) (s : string) :
  state_ok a → state_ok (set_state a s).
Proof. unfold set_state. case_bool_decide; [by right|done]. Qed.

(** ** One scan of the animals for one state *)

Lemma outcome_weaken s rest rest' σ σ' :
  rest ⊆ rest' → outcome s rest σ σ' → outcome s rest' σ σ'.
Proof.
  intros Hsub [|r a Hr Ha Hn Hs Hc]; [constructor|].
  apply one_placed; auto.
Qed.

Lemma for_animal_outcome (s : string) (rest : list nat) (σ : engine) :
  s ∈ VALID_STATES →
  occupants_live σ →
  Forall (λ r, r < length (heap σ)) rest →
  ∃ σ', for_animal s rest σ = Some σ' ∧ outcome s rest σ σ'.
Proof.
  intros Hs Hlive. induction rest as [|r rest IH]; intros Hrefs.
  - exists σ. split; [done|constructor].
  - apply Forall_cons in Hrefs as [Hr Hrefs].
    destruct (IH Hrefs) as (σ1 & Hrun & Hout).
    assert (Hskip : ∃ σ', for_animal s rest σ = Some σ' ∧ outcome s (r :: rest) σ σ').
    { exists σ1. split; [done|]. eapply outcome_weaken; [|done].
      intros x Hx. apply elem_of_cons. by right. }
    apply lookup_lt_is_Some_2 in Hr as [a Ha].
    simpl. rewrite Ha. simpl.
    case_bool_decide as Hplaced; [done|].
    case_bool_decide as Hocc.
    { exists σ. split; [done|constructor]. }
    rewrite (VALID_STATES_adjacent s Hs). simpl.
    destruct (threat_adjacent_spec σ (adjacent_of s) a Hlive) as (c1 & -> & H1).
    simpl. destruct c1; [done|].
    destruct (reverse_threat_spec σ (adjacent_of s) a Hlive) as (c2 & -> & H2).
    simpl. destruct c2; [done|].
    eexists. split; [done|]. apply one_placed; auto.
    + left.
    + by apply not_elem_of_dom.
    + intros adj o Hadj Ho. split.
      * destruct H1 as [H1 _]. by apply (H1 eq_refl adj o).
      * destruct H2 as [H2 _]. by apply (H2 eq_refl adj o).
Qed.

Lemma inv_start (h : list FictionalAnimal) (animals : list nat) :
  inv h animals [] (start h).
Proof.
  split; unfold occupant; simpl.
  - done.
  - intros r a Ha. by exists a.
  - intros s r Hs. by rewrite lookup_empty in Hs.
  - intros s r Hs. by rewrite lookup_empty in Hs.
  - intros n Hn. by apply not_elem_of_empty in Hn.
  - intros s t a b (r & Hr & _). by rewrite lookup_empty in Hr.
  - intros r a Ha. by left.
  - intros s t a b (r & Hr & _). by rewrite lookup_empty in Hr.
Qed.

Lemma inv_live h0 animals done σ : inv h0 animals done σ → occupants_live σ.
Proof.
  intros Hinv s r Hs. destruct (inv_occupied _ _ _ _ Hinv s r Hs) as (_ & a & Ha & _).
  by exists a.
Qed.

Lemma inv_done_mono h0 animals done done' σ :
  done ⊆ done' → inv h0 animals done σ → inv h0 animals done' σ.
Proof.
  intros Hsub [H1 H2 H3 H4 H5 H6 H7 H8]. split; try done.
  intros s r Hs. apply Hsub. by eapply H3.
Qed.

(** The occupants after a placement: the new one in [s], the old ones
    elsewhere. *)
Lemma occupant_place h0 animals done σ s r a s' a' :
  inv h0 animals done σ →
  heap σ !! r = Some a →
  name a ∉ placed_animals σ →
  occupied_states σ !! s = None →
  occupant (place σ s r a) s' a' ↔
  (s' = s ∧ a' = set_state a s) ∨ (s' ≠ s ∧ occupant σ s' a').
Proof.
  intros Hinv Ha Hn Hs.
  assert (Hr : r < length (heap σ)) by (by eapply lookup_lt_Some).
  assert (Hold : ∀ t r', occupied_states σ !! t = Some r' → r' ≠ r).
  { intros t r' Ht ->.
    destruct (inv_occupied _ _ _ _ Hinv t r Ht) as (_ & b & Hb & _ & Hp).
    congruence. }
  unfold occupant, place. simpl. split.
  - intros (r' & Hocc & Hheap). destruct (decide (s' = s)) as [->|Hne].
    + left. split; [done|]. rewrite lookup_insert_eq in Hocc.
      injection Hocc as <-. rewrite list_lookup_insert_eq in Hheap; [|done].
      congruence.
    + right. split; [done|]. rewrite lookup_insert_ne in Hocc; [|done].
      exists r'. split; [done|].
      rewrite list_lookup_insert_ne in Hheap; [done|].
      intros ->. by eapply Hold.
  - intros [[-> ->]|[Hne (r' & Hocc & Hheap)]].
    + exists r. split; [by rewrite lookup_insert_eq|].
      by rewrite list_lookup_insert_eq.
    + exists r'. split; [by rewrite lookup_insert_ne|].
      rewrite list_lookup_insert_ne; [done|]. intros ->. by eapply Hold.
Qed.

Lemma inv_place h0 animals done σ s r a :
  inv h0 animals done σ →
  s ∈ VALID_STATES →
  r ∈ animals →
  heap σ !! r = Some a →
  name a ∉ placed_animals σ →
  occupied_states σ !! s = None →
  (∀ adj o, adj ∈ adjacent_of s → occupant σ adj o → checks_pass o a) →
  inv h0 animals (s :: done) (place σ s r a).
Proof.
  intros Hinv Hs Hin Ha Hn Hfree Hchecks.
  assert (Hocc : ∀ s' a', occupant (place σ s r a) s' a' ↔
            (s' = s ∧ a' = set_state a s) ∨ (s' ≠ s ∧ occupant σ s' a')).
  { intros s' a'. by eapply occupant_place. }
  assert (Hr : r < length (heap σ)) by (by eapply lookup_lt_Some).
  assert (Hold : ∀ t r', occupied_states σ !! t = Some r' → r' ≠ r).
  { intros t r' Ht ->.
    destruct (inv_occupied _ _ _ _ Hinv t r Ht) as (_ & b & Hb & _ & Hp).
    congruence. }
  assert (Hnew : name (set_state a s) = name a ∧ threat (set_state a s) = threat a
                 ∧ state (set_state a s) = s).
  { by rewrite set_state_valid. }
  destruct Hnew as (Hname & Hthreat & Hstate).
  split.
  - simpl. rewrite length_insert. by eapply inv_length.
  - simpl. intros r' a' Ha'. destruct (decide (r' = r)) as [->|Hne].
    + rewrite list_lookup_insert_eq in Ha'; [|done]. injection Ha' as <-.
      destruct (inv_identity _ _ _ _ Hinv r a Ha) as (a0 & Ha0 & Hid).
      exists a0. split; [done|].
      destruct (set_state_identity a s) as (? & ? & ?).
      destruct Hid as (? & ? & ?). repeat split; congruence.
    + rewrite list_lookup_insert_ne in Ha'; [|done]. by eapply inv_identity.
  - simpl. intros s' r' Hs'. destruct (decide (s' = s)) as [->|Hne]; [left|].
    rewrite lookup_insert_ne in Hs'; [|done]. right. by eapply inv_dom.
  - simpl. intros s' r' Hs'. destruct (decide (s' = s)) as [->|Hne].
    + rewrite lookup_insert_eq in Hs'. injection Hs' as <-. split; [done|].
      exists (set_state a s). rewrite list_lookup_insert_eq; [|done].
      split; [done|]. split; [done|]. rewrite Hname.
      apply elem_of_union. left. by apply elem_of_singleton.
    + rewrite lookup_insert_ne in Hs'; [|done].
      destruct (inv_occupied _ _ _ _ Hinv s' r' Hs') as (? & b & Hb & ? & ?).
      split; [done|]. exists b.
      rewrite list_lookup_insert_ne; [|intros ->; by eapply Hold].
      split; [done|]. split; [done|]. apply elem_of_union. by right.
  - simpl. intros n Hn'. apply elem_of_union in Hn' as [Hn'|Hn'].
    + apply elem_of_singleton in Hn' as ->. exists s, (set_state a s).
      split; [|done]. apply Hocc. by left.
    + destruct (inv_placed _ _ _ _ Hinv n Hn') as (t & b & Hb & Hnb).
      exists t, b. split; [|done]. apply Hocc. right. split; [|done].
      intros ->. destruct Hb as (r' & Hr' & _). congruence.
  - intros s1 s2 a1 a2 H1 H2 Heq.
    apply Hocc in H1. apply Hocc in H2.
    assert (Hno : ∀ t b, occupant σ t b → name b ≠ name a).
    { intros t b (r' & Hr' & Hb) Hnb.
      destruct (inv_occupied _ _ _ _ Hinv t r' Hr') as (_ & b' & Hb' & _ & Hp).
      congruence. }
    destruct H1 as [[-> ->]|[Hne1 H1]], H2 as [[-> ->]|[Hne2 H2]].
    + done.
    + destruct (Hno _ _ H2). congruence.
    + destruct (Hno _ _ H1). congruence.
    + by eapply inv_names.
  - simpl. intros r' a' Ha'. destruct (decide (r' = r)) as [->|Hne].
    { rewrite list_lookup_insert_eq in Ha'; [|done]. injection Ha' as <-.
      right. by rewrite Hstate, lookup_insert_eq. }
    rewrite list_lookup_insert_ne in Ha'; [|done].
    destruct (inv_state _ _ _ _ Hinv r' a' Ha') as [H0|Hocc']; [by left|].
    right. rewrite lookup_insert_ne; [done|]. congruence.
  - intros s1 s2 a1 a2 H1 H2 Hadj.
    apply Hocc in H1. apply Hocc in H2.
    destruct H1 as [[-> ->]|[Hne1 H1]], H2 as [[-> ->]|[Hne2 H2]].
    + destruct Hadj as [Hadj|Hadj]; by apply adjacent_of_irrefl in Hadj.
    + assert (Hin2 : s2 ∈ adjacent_of s).
      { destruct Hadj as [Hadj|Hadj]; [done|by apply adjacent_of_sym]. }
      destruct (Hchecks s2 a2 Hin2 H2) as [Hf Hrv].
      rewrite Hname, Hthreat. split; congruence.
    + assert (Hin1 : s1 ∈ adjacent_of s).
      { destruct Hadj as [Hadj|Hadj]; [by apply adjacent_of_sym|done]. }
      destruct (Hchecks s1 a1 Hin1 H1) as [Hf Hrv].
      rewrite Hname, Hthreat. split; congruence.
    + by eapply inv_free.
Qed.

Lemma inv_outcome h0 animals done σ s σ' :
  inv h0 animals done σ →
  s ∈ VALID_STATES →
  outcome s animals σ σ' →
  inv h0 animals (s :: done) σ'.
Proof.
  intros Hinv Hs [|r a Hr Ha Hn Hfree Hchecks].
  - eapply inv_done_mono; [|done]. intros x Hx. apply elem_of_cons. by right.
  - by apply inv_place.
Qed.

(** ** The outer loop *)

Lemma grows_refl states σ : grows states σ σ.
Proof. by split. Qed.

Lemma grows_trans l1 l2 σ1 σ2 σ3 :
  grows l1 σ1 σ2 → grows l2 σ2 σ3 → grows (l1 ++ l2) σ1 σ3.
Proof.
  intros [A1 A2 A3 A4] [B1 B2 B3 B4]. split.
  - auto.
  - intros t Ht. rewrite B2, A2; [done|..]; intros Hin; apply Ht, elem_of_app; auto.
  - by etrans.
  - auto.
Qed.

Lemma outcome_grows s rest σ σ' : outcome s rest σ σ' → grows [s] σ σ'.
Proof.
  intros [|r a Hr Ha Hn Hfree Hchecks]; [apply grows_refl|]. split; simpl.
  - intros t r' Ht. rewrite lookup_insert_ne; [done|congruence].
  - intros t Ht. rewrite lookup_insert_ne; [done|].
    intros ->. apply Ht. left.
  - apply union_subseteq_r.
  - intros r' a' Ha' Hn'. rewrite list_lookup_insert_ne; [done|].
    intros ->. congruence.
Qed.

Lemma for_state_app l1 l2 animals σ :
  for_state (l1 ++ l2) animals σ
  = for_state l1 animals σ ≫= for_state l2 animals.
Proof.
  revert σ. induction l1 as [|s l1 IH]; intros σ; simpl; [done|].
  destruct (for_animal s animals σ) as [σ1|]; simpl; [apply IH|done].
Qed.

Lemma for_state_inv h0 animals states :
  refs_ok h0 animals →
  states ⊆ VALID_STATES →
  ∀ done σ, inv h0 animals done σ →
  ∃ σ', for_state states animals σ = Some σ'
        ∧ inv h0 animals (states ++ done) σ'
        ∧ grows states σ σ'.
Proof.
  intros Hrefs. induction states as [|s rest IH]; intros Hsub done σ Hinv.
  - exists σ. split; [done|]. split; [done|apply grows_refl].
  - assert (Hs : s ∈ VALID_STATES) by (apply Hsub; left).
    assert (Hrest : rest ⊆ VALID_STATES).
    { intros x Hx. apply Hsub. by right. }
    destruct (for_animal_outcome s animals σ Hs) as (σ1 & Hrun & Hout).
    { by eapply inv_live. }
    { unfold refs_ok in Hrefs. by rewrite (inv_length _ _ _ _ Hinv). }
    pose proof (inv_outcome _ _ _ _ _ _ Hinv Hs Hout) as Hinv1.
    destruct (IH Hrest (s :: done) σ1 Hinv1) as (σ2 & Hrun2 & Hinv2 & Hg2).
    exists σ2. simpl. rewrite Hrun. simpl. split; [done|]. split.
    + eapply inv_done_mono; [|done]. intros x Hx.
      apply elem_of_app in Hx as [Hx|Hx].
      * apply elem_of_cons. right. apply elem_of_app. by left.
      * apply elem_of_cons in Hx as [->|Hx]; [left|].
        apply elem_of_cons. right. apply elem_of_app. by right.
    + apply (grows_trans [s] rest σ σ1 σ2); [|done]. by eapply outcome_grows.
Qed.

(** A run on well-formed input returns, and its final engine satisfies the
    invariant for all of [VALID_STATES]. *)
Lemma relocate_animals_inv h animals :
  refs_ok h animals →
  ∃ σ, relocate_animals h animals = Some σ ∧ inv h animals VALID_STATES σ.
Proof.
  intros Hrefs.
  destruct (for_state_inv h animals VALID_STATES Hrefs (reflexivity _) [] (start h))
    as (σ & Hrun & Hinv & _); [apply inv_start|].
  exists σ. split; [done|]. by rewrite app_nil_r in Hinv.
Qed.

(** ** The Koala and Dingo scenario *)

(** C3. With the entities Koala (threat Dingo) then Dingo (no threat), the
    scan for NSW places Koala there; the scans for QLD and for VIC reject
    Dingo, the forward check passing and the reverse check finding Koala,
    whose threat is Dingo, in the adjacent NSW, and they place nothing; the
    run ends with Koala in NSW and Dingo in TAS, and no other state
    occupied. *)
Theorem koala_dingo_scenario (hk hd : string) :
  let h := [Koala hk; Dingo hd] in
  let σ1 := place (start h) "NSW" 0 (Koala hk) in
  for_animal "NSW" [0; 1] (start h) = Some σ1
  ∧ occupied_states σ1 = {[ "NSW" := 0 ]}
  ∧ "NSW" ∈ adjacent_of "QLD"
  ∧ rejected_by_reverse_check σ1 "QLD" [0; 1] (Dingo hd)
  ∧ "NSW" ∈ adjacent_of "VIC"
  ∧ rejected_by_reverse_check σ1 "VIC" [0; 1] (Dingo hd)
  ∧ for_state ["NSW"; "QLD"; "VIC"] [0; 1] (start h) = Some σ1
  ∧ ∃ σ, relocate_animals h [0; 1] = Some σ
         ∧ heap σ = [ {| name := "Koala"; habitat := hk; threat := "Dingo";
                         state := "NSW" |};
                      {| name := "Dingo"; habitat := hd; threat := "";
                         state := "TAS" |} ]
         ∧ occupied_states σ = <[ "TAS" := 1 ]> {[ "NSW" := 0 ]}.
Proof.
  intros h σ1. split; [by_computation|]. split; [by_computation|].
  split; [by_computation|]. split.
  { split; [exists 1; split; by_computation|]. repeat split; by_computation. }
  split; [by_computation|]. split.
  { split; [exists 1; split; by_computation|]. repeat split; by_computation. }
  split; [by_computation|].
  eexists. split; [by_computation|]. split; by_computation.
Qed.

(** ** The adjacency table *)

(** C4, as the table has it. The stored adjacency relation is symmetric: a
    state is listed among the neighbours of another exactly when the other
    is listed among its own. *)
Theorem adjacency_symmetric (s t : string) :
  t ∈ adjacent_of s ↔ s ∈ adjacent_of t.
Proof. split; apply adjacent_of_sym. Qed.

(** C4, as stated, fails: the table has no pair of states listed in one
    direction only. *)
Lemma adjacency_no_one_way_pair :
  ¬ ∃ s t, t ∈ adjacent_of s ∧ s ∉ adjacent_of t.
Proof. intros (s & t & Hst & Hts). by apply Hts, adjacent_of_sym. Qed.

(** ** The loader *)

Lemma entity_of_record_Some (line : string) :
  is_Some (entity_of_record line) ↔ length (fields line) = 3.
Proof.
  unfold entity_of_record.
  destruct (fields line) as [|a [|b [|c [|d l]]]]; simpl; split;
    try (intros [? ?]; discriminate); try discriminate; try done.
Qed.

Lemma read_lines_spec (lines : list string) (animals : list FictionalAnimal) :
  read_lines lines animals = (animals ++ omap entity_of_record lines)%list.
Proof.
  revert animals. induction lines as [|line rest IH]; intros animals; simpl.
  - by rewrite app_nil_r.
  - unfold entity_of_record, fields.
    destruct (Str.split "," (Str.strip line)) as [|a [|b [|c [|d l]]]]; simpl;
      rewrite IH; try done.
    by rewrite <- app_assoc.
Qed.

Lemma split_length (sep : ascii) (s : string) :
  length (Str.split sep s) = S (Str.count sep s).
Proof.
  induction s as [|c r IH]; simpl; [done|].
  case_bool_decide; simpl; [by rewrite IH|].
  destruct (Str.split sep r); simpl in *; [done|]. done.
Qed.

(** C7. A missing [animals.csv] gives the empty list, with no error. A
    file gives, in the order of its records, the entity of each record that
    splits into exactly three comma-delimited fields, and nothing for a
    record of any other field count: as many entities as there are records
    of three fields. The number of fields of a record is one more than the
    number of commas in it, and with no file the run places nothing. *)
Theorem load_dataset_records :
  load_dataset None = []
  ∧ main None = Some (start [])
  ∧ ∀ lines : list string,
      load_dataset (Some lines) = omap entity_of_record lines
      ∧ length (load_dataset (Some lines))
        = length (filter (λ line, length (fields line) = 3) lines)
      ∧ ∀ line,
          (length (fields line) = 3 ↔ ∃ name0 habitat0 threat0,
             fields line = [name0; habitat0; threat0]
             ∧ entity_of_record line = Some (__init__ name0 habitat0 threat0))
          ∧ (length (fields line) ≠ 3 ↔ entity_of_record line = None)
          ∧ length (fields line) = S (Str.count "," (Str.strip line)).
Proof.
  split; [done|]. split; [by_computation|]. intros lines.
  assert (Hload : load_dataset (Some lines) = omap entity_of_record lines).
  { simpl. by rewrite read_lines_spec. }
  split; [done|]. split.
  - rewrite Hload. clear Hload. induction lines as [|line rest IH]; [done|].
    simpl. rewrite filter_cons.
    destruct (decide (length (fields line) = 3)) as [H3|H3].
    + apply entity_of_record_Some in H3 as [e ->]. simpl. f_equal. exact IH.
    + destruct (entity_of_record line) as [e|] eqn:He; [|exact IH].
      destruct H3. apply entity_of_record_Some. by exists e.
  - intros line. split; [|split; [|apply split_length]]; unfold entity_of_record;
      destruct (fields line) as [|a [|b [|c [|d l]]]]; simpl; split;
      try done; try (intros (? & ? & ? & ? & ?); discriminate).
    intros _. by exists a, b, c.
Qed.

(** ** A run, cut at the iteration for one state *)

Lemma identity_stable h0 animals d1 d2 σ1 σ2 r a1 a2 :
  inv h0 animals d1 σ1 → inv h0 animals d2 σ2 →
  heap σ1 !! r = Some a1 → heap σ2 !! r = Some a2 →
  same_identity a1 a2.
Proof.
  intros H1 H2 Ha1 Ha2.
  destruct (inv_identity _ _ _ _ H1 r a1 Ha1) as (b1 & Hb1 & (? & ? & ?)).
  destruct (inv_identity _ _ _ _ H2 r a2 Ha2) as (b2 & Hb2 & (? & ? & ?)).
  assert (b1 = b2) as -> by congruence.
  repeat split; congruence.
Qed.

(** The run is the iterations before [s], the scan for [s], and the
    iterations after [s]; the invariant holds at both cuts and at the end. *)
Lemma run_split h animals done s todo :
  refs_ok h animals →
  VALID_STATES = (done ++ s :: todo)%list →
  ∃ σ0 σ1 σ,
    for_state done animals (start h) = Some σ0
    ∧ for_animal s animals σ0 = Some σ1
    ∧ for_state todo animals σ1 = Some σ
    ∧ relocate_animals h animals = Some σ
    ∧ inv h animals done σ0
    ∧ outcome s animals σ0 σ1
    ∧ inv h animals (s :: done) σ1
    ∧ inv h animals VALID_STATES σ
    ∧ grows todo σ1 σ
    ∧ (s ∉ done) ∧ (s ∉ todo).
Proof.
  intros Hrefs Hcut.
  pose proof VALID_STATES_NoDup as Hnd. rewrite Hcut in Hnd.
  apply NoDup_app in Hnd as (_ & Hdisj & Hnd).
  apply NoDup_cons in Hnd as (Hs_todo & _).
  assert (Hs : s ∈ VALID_STATES).
  { rewrite Hcut. apply elem_of_app. right. left. }
  assert (Hdone : done ⊆ VALID_STATES).
  { intros x Hx. rewrite Hcut. apply elem_of_app. by left. }
  assert (Htodo : todo ⊆ VALID_STATES).
  { intros x Hx. rewrite Hcut. apply elem_of_app. right. by right. }
  destruct (for_state_inv h animals done Hrefs Hdone [] (start h))
    as (σ0 & Hrun0 & Hinv0 & _); [apply inv_start|].
  rewrite app_nil_r in Hinv0.
  destruct (for_animal_outcome s animals σ0 Hs) as (σ1 & Hrun1 & Hout).
  { by eapply inv_live. }
  { unfold refs_ok in Hrefs. by rewrite (inv_length _ _ _ _ Hinv0). }
  pose proof (inv_outcome _ _ _ _ _ _ Hinv0 Hs Hout) as Hinv1.
  destruct (for_state_inv h animals todo Hrefs Htodo (s :: done) σ1 Hinv1)
    as (σ & Hrun & Hinv & Hgrows).
  exists σ0, σ1, σ.
  split; [done|]. split; [done|]. split; [done|]. split.
  { unfold relocate_animals. rewrite Hcut, for_state_app, Hrun0. simpl.
    by rewrite Hrun1. }
  split; [done|]. split; [done|]. split; [done|]. split.
  { eapply inv_done_mono; [|exact Hinv].
    intros x Hx. rewrite Hcut.
    apply elem_of_app in Hx as [Hx|Hx].
    + apply elem_of_app. right. by right.
    + apply elem_of_cons in Hx as [->|Hx]; apply elem_of_app; [right; left|by left]. }
  split; [done|]. split; [|done].
  intros Hin. apply (Hdisj s Hin). left.
Qed.

(** ** Adjacency checks of the final assignment *)

(** C1. Cut a run at the iteration for any state [s]: [σ0] is the engine
    when the scan for [s] starts, [σ1] when it ends, [σ] at the end of the
    run. If the scan places an animal in [s], then at that decision, for
    every adjacent state already occupied, the forward check (the occupant's
    name is not the candidate's threat) and the reverse check (the
    occupant's threat is not the candidate's name) both pass; and the same
    holds in the final assignment between the occupant of [s] and the
    occupant of every adjacent state that was occupied when [s] was
    decided. *)
Theorem placement_checks_pass h animals done s todo :
  refs_ok h animals →
  VALID_STATES = (done ++ s :: todo)%list →
  ∃ σ0 σ1 σ,
    for_state done animals (start h) = Some σ0
    ∧ for_animal s animals σ0 = Some σ1
    ∧ for_state todo animals σ1 = Some σ
    ∧ relocate_animals h animals = Some σ
    ∧ (∀ r a adj o,
         occupied_states σ1 !! s = Some r → heap σ0 !! r = Some a →
         adj ∈ adjacent_of s → occupant σ0 adj o →
         checks_pass o a)
    ∧ (∀ a adj o,
         occupant σ s a →
         adj ∈ adjacent_of s → is_Some (occupied_states σ0 !! adj) →
         occupant σ adj o →
         checks_pass o a).
Proof.
  intros Hrefs Hcut.
  destruct (run_split h animals done s todo Hrefs Hcut)
    as (σ0 & σ1 & σ & Hrun0 & Hrun1 & Hrun & Hfull & Hinv0 & Hout & Hinv1 & Hinv
        & Hgrows & Hs_done & Hs_todo).
  exists σ0, σ1, σ.
  split; [done|]. split; [done|]. split; [done|]. split; [done|].
  assert (Hfree0 : occupied_states σ0 !! s = None).
  { destruct (occupied_states σ0 !! s) as [r|] eqn:E; [|done].
    destruct Hs_done. by eapply inv_dom. }
  assert (Hdecision : ∀ r a adj o,
    occupied_states σ1 !! s = Some r → heap σ0 !! r = Some a →
    adj ∈ adjacent_of s → occupant σ0 adj o → checks_pass o a).
  { intros r a adj o Hr Ha Hadj Ho.
    destruct Hout as [|r' a' Hr' Ha' Hn Hfree Hchecks]; [congruence|].
    simpl in Hr. rewrite lookup_insert_eq in Hr.
    assert (r' = r) as -> by congruence. assert (a' = a) as -> by congruence.
    by eapply Hchecks. }
  split; [done|].
  intros a adj o (r & Hr & Ha) Hadj [ra Hra] (ra' & Hra' & Ho).
  rewrite (grows_frame _ _ _ Hgrows s Hs_todo) in Hr.
  assert (Hra1 : occupied_states σ1 !! adj = Some ra).
  { eapply grows_occupied; [by eapply outcome_grows|done]. }
  assert (ra' = ra) as ->.
  { pose proof (grows_occupied _ _ _ Hgrows adj ra Hra1). congruence. }
  destruct (inv_live _ _ _ _ Hinv0 adj ra Hra) as [o0 Ho0].
  assert (Hr0 : is_Some (heap σ0 !! r)).
  { apply lookup_lt_is_Some. rewrite (inv_length _ _ _ _ Hinv0).
    rewrite <- (inv_length _ _ _ _ Hinv). by eapply lookup_lt_Some. }
  destruct Hr0 as [a0 Ha0].
  destruct (Hdecision r a0 adj o0 Hr Ha0 Hadj) as [Hf Hrv]; [by exists ra|].
  destruct (identity_stable _ _ _ _ _ _ _ _ _ Hinv0 Hinv Ha0 Ha) as (? & _ & ?).
  destruct (identity_stable _ _ _ _ _ _ _ _ _ Hinv0 Hinv Ho0 Ho) as (? & _ & ?).
  split; congruence.
Qed.

Lemma three_animals_refs_ok : refs_ok three_animals [0; 1; 2].
Proof. by_computation. Defined.

Lemma placement_checks_pass_witness :
  refs_ok three_animals [0; 1; 2]
  ∧ VALID_STATES = (["NSW"] ++ "QLD" :: ["VIC"; "TAS"; "SA"; "NT"; "WA"])%list
  ∧ ∃ σ0 σ1 σ,
      for_state ["NSW"] [0; 1; 2] (start three_animals) = Some σ0
      ∧ for_animal "QLD" [0; 1; 2] σ0 = Some σ1
      ∧ for_state ["VIC"; "TAS"; "SA"; "NT"; "WA"] [0; 1; 2] σ1 = Some σ
      ∧ relocate_animals three_animals [0; 1; 2] = Some σ
      ∧ (∀ r a adj o,
           occupied_states σ1 !! "QLD" = Some r → heap σ0 !! r = Some a →
           adj ∈ adjacent_of "QLD" → occupant σ0 adj o →
           checks_pass o a)
      ∧ (∀ a adj o,
           occupant σ "QLD" a →
           adj ∈ adjacent_of "QLD" → is_Some (occupied_states σ0 !! adj) →
           occupant σ adj o →
           checks_pass o a).
Proof.
  split; [exact three_animals_refs_ok|]. split; [reflexivity|].
  apply (placement_checks_pass three_animals [0; 1; 2] ["NSW"] "QLD"
           ["VIC"; "TAS"; "SA"; "NT"; "WA"]);
    [exact three_animals_refs_ok | reflexivity].
Defined.

(** C9. The adjacency table is symmetric, and the final assignment of a
    run is free of conflicts in both directions: for every two occupied
    states of which either is listed adjacent to the other, neither
    occupant's threat is the other occupant's name, whatever the order in
    which the two were placed. *)
Theorem final_assignment_conflict_free h animals :
  refs_ok h animals →
  (∀ s t, t ∈ adjacent_of s ↔ s ∈ adjacent_of t)
  ∧ ∃ σ, relocate_animals h animals = Some σ
         ∧ ∀ s t a b,
             occupant σ s a → occupant σ t b →
             t ∈ adjacent_of s ∨ s ∈ adjacent_of t →
             threat a ≠ name b ∧ threat b ≠ name a.
Proof.
  intros Hrefs. split; [split; apply adjacent_of_sym|].
  destruct (relocate_animals_inv h animals Hrefs) as (σ & Hrun & Hinv).
  exists σ. split; [done|]. by eapply inv_free.
Qed.

Lemma final_assignment_conflict_free_witness :
  refs_ok three_animals [0; 1; 2]
  ∧ (∀ s t, t ∈ adjacent_of s ↔ s ∈ adjacent_of t)
  ∧ ∃ σ, relocate_animals three_animals [0; 1; 2] = Some σ
         ∧ ∀ s t a b,
             occupant σ s a → occupant σ t b →
             t ∈ adjacent_of s ∨ s ∈ adjacent_of t →
             threat a ≠ name b ∧ threat b ≠ name a.
Proof.
  split; [exact three_animals_refs_ok|].
  exact (final_assignment_conflict_free three_animals [0; 1; 2]
           three_animals_refs_ok).
Defined.

(** ** Uniqueness of the assigned states *)

(** C2. After a run on entities that start unassigned: every occupied
    state holds one entity of the list, whose [state] is that state; no
    entity occupies two states; an entity whose [state] is not [ACT] is the
    occupant of that state; and so no two entities have the same [state]
    other than [ACT]. *)
Theorem assigned_states_unique h animals :
  refs_ok h animals →
  fresh h animals →
  ∃ σ, relocate_animals h animals = Some σ
       ∧ (∀ s r, occupied_states σ !! s = Some r →
            r ∈ animals ∧ ∃ a, heap σ !! r = Some a ∧ state a = s)
       ∧ (∀ s t r, occupied_states σ !! s = Some r →
            occupied_states σ !! t = Some r → s = t)
       ∧ (∀ r a, r ∈ animals → heap σ !! r = Some a → state a ≠ ACT →
            occupied_states σ !! state a = Some r)
       ∧ (∀ r1 r2 a1 a2, r1 ∈ animals → r2 ∈ animals →
            heap σ !! r1 = Some a1 → heap σ !! r2 = Some a2 →
            state a1 ≠ ACT → state a1 = state a2 → r1 = r2).
Proof.
  intros Hrefs Hfresh.
  destruct (relocate_animals_inv h animals Hrefs) as (σ & Hrun & Hinv).
  exists σ. split; [done|].
  assert (Hplaced : ∀ r a, r ∈ animals → heap σ !! r = Some a → state a ≠ ACT →
            occupied_states σ !! state a = Some r).
  { intros r a Hr Ha Hne.
    destruct (inv_state _ _ _ _ Hinv r a Ha) as [H0|Hocc]; [|done].
    destruct Hne. by eapply Hfresh. }
  split; [|split; [|split; [done|]]].
  - intros s r Hs. destruct (inv_occupied _ _ _ _ Hinv s r Hs) as (? & a & ? & ? & _).
    split; [done|]. by exists a.
  - intros s t r Hs Ht.
    destruct (inv_occupied _ _ _ _ Hinv s r Hs) as (_ & a & Ha & <- & _).
    destruct (inv_occupied _ _ _ _ Hinv t r Ht) as (_ & b & Hb & <- & _).
    congruence.
  - intros r1 r2 a1 a2 Hr1 Hr2 Ha1 Ha2 Hne Heq.
    pose proof (Hplaced r1 a1 Hr1 Ha1 Hne) as H1.
    assert (Hne2 : state a2 ≠ ACT) by congruence.
    pose proof (Hplaced r2 a2 Hr2 Ha2 Hne2) as H2.
    congruence.
Qed.

Lemma three_animals_fresh : fresh three_animals [0; 1; 2].
Proof.
  intros r a _ Ha. destruct r as [|[|[|r]]]; simpl in Ha; [| | |done];
    by injection Ha as <-.
Defined.

Lemma assigned_states_unique_witness :
  refs_ok three_animals [0; 1; 2]
  ∧ fresh three_animals [0; 1; 2]
  ∧ ∃ σ, relocate_animals three_animals [0; 1; 2] = Some σ
       ∧ (∀ s r, occupied_states σ !! s = Some r →
            r ∈ [0; 1; 2] ∧ ∃ a, heap σ !! r = Some a ∧ state a = s)
       ∧ (∀ s t r, occupied_states σ !! s = Some r →
            occupied_states σ !! t = Some r → s = t)
       ∧ (∀ r a, r ∈ [0; 1; 2] → heap σ !! r = Some a → state a ≠ ACT →
            occupied_states σ !! state a = Some r)
       ∧ (∀ r1 r2 a1 a2, r1 ∈ [0; 1; 2] → r2 ∈ [0; 1; 2] →
            heap σ !! r1 = Some a1 → heap σ !! r2 = Some a2 →
            state a1 ≠ ACT → state a1 = state a2 → r1 = r2).
Proof.
  split; [exact three_animals_refs_ok|]. split; [exact three_animals_fresh|].
  exact (assigned_states_unique three_animals [0; 1; 2]
           three_animals_refs_ok three_animals_fresh).
Defined.

(** ** set_state and the values of [state] *)

(** C5. [set_state] with a string outside [VALID_STATES] leaves the object
    as it was; with a string of [VALID_STATES] it sets [state] to it and
    changes nothing else; a new object has the state [ACT]. So when every
    object of the store has [ACT] or a valid state on entry, a run ends
    with every object in [ACT] or in a valid state. *)
Theorem set_state_guard h animals :
  refs_ok h animals →
  Forall state_ok h →
  (∀ a s, s ∉ VALID_STATES → set_state a s = a)
  ∧ (∀ a s, s ∈ VALID_STATES →
       get_state (set_state a s) = s ∧ same_identity (set_state a s) a)
  ∧ (∀ name0 habitat0 threat0, get_state (__init__ name0 habitat0 threat0) = ACT)
  ∧ ∃ σ, relocate_animals h animals = Some σ
         ∧ Forall (λ a, get_state a = ACT ∨ get_state a ∈ VALID_STATES) (heap σ).
Proof.
  intros Hrefs Hok.
  split; [apply set_state_invalid|]. split.
  { intros a s Hs. split; [by rewrite set_state_valid|apply set_state_identity]. }
  split; [done|].
  destruct (relocate_animals_inv h animals Hrefs) as (σ & Hrun & Hinv).
  exists σ. split; [done|]. apply Forall_lookup. intros r a Ha.
  destruct (inv_state _ _ _ _ Hinv r a Ha) as [H0|Hocc].
  - rewrite Forall_lookup in Hok. exact (Hok r a H0).
  - right. by eapply inv_dom.
Qed.

Lemma three_animals_state_ok : Forall state_ok three_animals.
Proof. repeat constructor; by left. Defined.

Lemma set_state_guard_witness :
  refs_ok three_animals [0; 1; 2]
  ∧ Forall state_ok three_animals
  ∧ ("ACT" ∉ VALID_STATES)
  ∧ set_state (Koala "Forest") "ACT" = Koala "Forest"
  ∧ "TAS" ∈ VALID_STATES
  ∧ get_state (set_state (Koala "Forest") "TAS") = "TAS"
  ∧ ∃ σ, relocate_animals three_animals [0; 1; 2] = Some σ
         ∧ Forall (λ a, get_state a = ACT ∨ get_state a ∈ VALID_STATES) (heap σ).
Proof.
  pose proof (set_state_guard three_animals [0; 1; 2]
                three_animals_refs_ok three_animals_state_ok)
    as (Hout & Hin & _ & Hrun).
  assert (H1 : "ACT" ∉ VALID_STATES) by exact ACT_not_valid.
  assert (H2 : "TAS" ∈ VALID_STATES) by by_computation.
  split; [exact three_animals_refs_ok|]. split; [exact three_animals_state_ok|].
  split; [exact H1|]. split; [exact (Hout _ _ H1)|].
  split; [exact H2|]. split; [exact (proj1 (Hin (Koala "Forest") _ H2))|].
  exact Hrun.
Defined.

(** ** Placement is tracked by name *)

(** C10. An entity whose name is in [placed_animals] is skipped by the scan,
    whatever object it is. Cut a run at the iteration for any state [s]:
    the name of the entity that the scan places in [s], if any, was not in
    [placed_animals] before; names never leave [placed_animals]; and an
    object whose name is in [placed_animals] is not written for the rest of
    the run. At the end, [placed_animals] holds exactly the names of the
    occupants, two occupied states never hold entities of the same name,
    and no entity occupies two states. *)
Theorem placement_tracked_by_name h animals done s todo :
  refs_ok h animals →
  VALID_STATES = (done ++ s :: todo)%list →
  (∀ σ t r rest a, heap σ !! r = Some a → name a ∈ placed_animals σ →
     for_animal t (r :: rest) σ = for_animal t rest σ)
  ∧ ∃ σ0 σ1 σ,
      for_state done animals (start h) = Some σ0
      ∧ for_animal s animals σ0 = Some σ1
      ∧ for_state todo animals σ1 = Some σ
      ∧ relocate_animals h animals = Some σ
      ∧ (∀ r a, occupied_states σ1 !! s = Some r → heap σ0 !! r = Some a →
           (name a ∉ placed_animals σ0) ∧ name a ∈ placed_animals σ1)
      ∧ placed_animals σ0 ⊆ placed_animals σ1
      ∧ placed_animals σ1 ⊆ placed_animals σ
      ∧ (∀ r a, heap σ0 !! r = Some a → name a ∈ placed_animals σ0 →
           heap σ1 !! r = Some a ∧ heap σ !! r = Some a)
      ∧ (∀ n, n ∈ placed_animals σ ↔ ∃ t a, occupant σ t a ∧ name a = n)
      ∧ (∀ t1 t2 a b, occupant σ t1 a → occupant σ t2 b → name a = name b →
           t1 = t2)
      ∧ (∀ t1 t2 r, occupied_states σ !! t1 = Some r →
           occupied_states σ !! t2 = Some r → t1 = t2).
Proof.
  intros Hrefs Hcut. split.
  { intros σ t r rest a Ha Hn. simpl. rewrite Ha. simpl.
    by rewrite bool_decide_eq_true_2. }
  destruct (run_split h animals done s todo Hrefs Hcut)
    as (σ0 & σ1 & σ & Hrun0 & Hrun1 & Hrun & Hfull & Hinv0 & Hout & Hinv1 & Hinv
        & Hgrows & Hs_done & Hs_todo).
  pose proof (outcome_grows _ _ _ _ Hout) as Hgrows1.
  exists σ0, σ1, σ.
  split; [done|]. split; [done|]. split; [done|]. split; [done|].
  split.
  { intros r a Hr Ha.
    assert (Hfree0 : occupied_states σ0 !! s = None).
    { destruct (occupied_states σ0 !! s) as [r0|] eqn:E; [|done].
      destruct Hs_done. by eapply inv_dom. }
    destruct Hout as [|r' a' Hr' Ha' Hn Hfree Hchecks]; [congruence|].
    simpl in Hr. rewrite lookup_insert_eq in Hr.
    assert (r' = r) as -> by congruence. assert (a' = a) as -> by congruence.
    split; [done|]. simpl. apply elem_of_union. left. by apply elem_of_singleton. }
  split; [by eapply grows_placed|]. split; [by eapply grows_placed|].
  split.
  { intros r a Ha Hn.
    pose proof (grows_heap _ _ _ Hgrows1 r a Ha Hn) as Ha1.
    split; [done|]. eapply grows_heap; [done..|].
    by eapply (grows_placed _ _ _ Hgrows1). }
  split.
  { intros n. split; [by eapply inv_placed|].
    intros (t & a & (r & Hr & Ha) & <-).
    destruct (inv_occupied _ _ _ _ Hinv t r Hr) as (_ & b & Hb & _ & Hp).
    congruence. }
  split; [by eapply inv_names|].
  intros t1 t2 r H1 H2.
  destruct (inv_occupied _ _ _ _ Hinv t1 r H1) as (_ & a & Ha & <- & _).
  destruct (inv_occupied _ _ _ _ Hinv t2 r H2) as (_ & b & Hb & <- & _).
  congruence.
Qed.

Lemma placement_tracked_by_name_witness :
  refs_ok three_animals [0; 1; 2]
  ∧ VALID_STATES = (["NSW"] ++ "QLD" :: ["VIC"; "TAS"; "SA"; "NT"; "WA"])%list
  ∧ (∀ σ t r rest a, heap σ !! r = Some a → name a ∈ placed_animals σ →
       for_animal t (r :: rest) σ = for_animal t rest σ)
  ∧ ∃ σ0 σ1 σ,
      for_state ["NSW"] [0; 1; 2] (start three_animals) = Some σ0
      ∧ for_animal "QLD" [0; 1; 2] σ0 = Some σ1
      ∧ for_state ["VIC"; "TAS"; "SA"; "NT"; "WA"] [0; 1; 2] σ1 = Some σ
      ∧ relocate_animals three_animals [0; 1; 2] = Some σ
      ∧ (∀ r a, occupied_states σ1 !! "QLD" = Some r → heap σ0 !! r = Some a →
           (name a ∉ placed_animals σ0) ∧ name a ∈ placed_animals σ1)
      ∧ placed_animals σ0 ⊆ placed_animals σ1
      ∧ placed_animals σ1 ⊆ placed_animals σ
      ∧ (∀ r a, heap σ0 !! r = Some a → name a ∈ placed_animals σ0 →
           heap σ1 !! r = Some a ∧ heap σ !! r = Some a)
      ∧ (∀ n, n ∈ placed_animals σ ↔ ∃ t a, occupant σ t a ∧ name a = n)
      ∧ (∀ t1 t2 a b, occupant σ t1 a → occupant σ t2 b → name a = name b →
           t1 = t2)
      ∧ (∀ t1 t2 r, occupied_states σ !! t1 = Some r →
           occupied_states σ !! t2 = Some r → t1 = t2).
Proof.
  split; [exact three_animals_refs_ok|]. split; [reflexivity|].
  apply (placement_tracked_by_name three_animals [0; 1; 2] ["NSW"] "QLD"
           ["VIC"; "TAS"; "SA"; "NT"; "WA"]);
    [exact three_animals_refs_ok | reflexivity].
Defined.

(** ** Running the engine again *)

Lemma reset_length (h : list FictionalAnimal) : length (reset h) = length h.
Proof. unfold reset. by rewrite length_fmap. Qed.

Lemma reset_identity (h1 h2 : list FictionalAnimal) :
  length h1 = length h2 →
  (∀ r a1 a2, h1 !! r = Some a1 → h2 !! r = Some a2 → same_identity a1 a2) →
  reset h1 = reset h2.
Proof.
  intros Hlen Hid. apply list_eq. intros r. unfold reset.
  rewrite !list_lookup_fmap.
  destruct (h1 !! r) as [a1|] eqn:H1, (h2 !! r) as [a2|] eqn:H2; simpl.
  - destruct (Hid r a1 a2 H1 H2) as (-> & -> & ->). done.
  - apply lookup_lt_Some in H1. apply lookup_ge_None in H2. lia.
  - apply lookup_ge_None in H1. apply lookup_lt_Some in H2. lia.
  - done.
Qed.

Lemma reset_fresh (h : list FictionalAnimal) :
  Forall (λ a, state a = ACT) h → reset h = h.
Proof.
  intros Hfresh. unfold reset. induction Hfresh as [|a h Ha _ IH]; [done|].
  rewrite fmap_cons, IH. f_equal. destruct a. simpl in *. by subst.
Qed.

(** C6. A run is a function of the store and of the list, with no other
    state: its two local variables start empty at every call. Running it
    on fresh entities, putting every entity back to [ACT] and running it
    again, with the same list in the same order, ends in the same engine:
    the same store, the same assignment and the same set of placed names. *)
Theorem rerun_same_assignment h animals :
  refs_ok h animals →
  Forall (λ a, state a = ACT) h →
  occupied_states (start h) = ∅ ∧ placed_animals (start h) = ∅
  ∧ ∃ σ, relocate_animals h animals = Some σ
         ∧ reset (heap σ) = h
         ∧ relocate_animals (reset (heap σ)) animals = Some σ.
Proof.
  intros Hrefs Hfresh. split; [done|]. split; [done|].
  destruct (relocate_animals_inv h animals Hrefs) as (σ & Hrun & Hinv).
  exists σ. split; [done|].
  assert (Hreset : reset (heap σ) = h).
  { transitivity (reset h); [|by apply reset_fresh]. apply reset_identity.
    - by eapply inv_length.
    - intros r a1 a2 H1 H2.
      destruct (inv_identity _ _ _ _ Hinv r a1 H1) as (a0 & H0 & Hid). congruence. }
  split; [done|]. by rewrite Hreset.
Qed.

Lemma three_animals_all_fresh : Forall (λ a, state a = ACT) three_animals.
Proof. by repeat constructor. Defined.

Lemma rerun_same_assignment_witness :
  refs_ok three_animals [0; 1; 2]
  ∧ Forall (λ a, state a = ACT) three_animals
  ∧ occupied_states (start three_animals) = ∅
  ∧ placed_animals (start three_animals) = ∅
  ∧ ∃ σ, relocate_animals three_animals [0; 1; 2] = Some σ
         ∧ reset (heap σ) = three_animals
         ∧ relocate_animals (reset (heap σ)) [0; 1; 2] = Some σ.
Proof.
  split; [exact three_animals_refs_ok|]. split; [exact three_animals_all_fresh|].
  exact (rerun_same_assignment three_animals [0; 1; 2]
           three_animals_refs_ok three_animals_all_fresh).
Defined.

(** ** The habitat plays no part *)

Section Habitat.

Variables σ1 σ2 : engine.
Hypothesis Hsame : same_placement σ1 σ2.

Lemma same_placement_lookup (r : nat) :
  option_Forall2 same_but_habitat (heap σ1 !! r) (heap σ2 !! r).
Proof. destruct Hsame as (Hheap & _). by apply Forall2_lookup. Qed.

Lemma threat_adjacent_habitat adjacent a1 a2 :
  same_but_habitat a1 a2 →
  threat_adjacent σ1 adjacent a1 = threat_adjacent σ2 adjacent a2.
Proof.
  intros (_ & Ht & _). destruct Hsame as (_ & Hocc & _).
  induction adjacent as [|adj rest IH]; simpl; [done|].
  rewrite <- Hocc. destruct (occupied_states σ1 !! adj) as [r|]; [|done].
  destruct (same_placement_lookup r) as [o1 o2 (Hn & _)|]; simpl; [|done].
  by rewrite Hn, Ht, IH.
Qed.

Lemma reverse_threat_habitat adjacent a1 a2 :
  same_but_habitat a1 a2 →
  reverse_threat σ1 adjacent a1 = reverse_threat σ2 adjacent a2.
Proof.
  intros (Hn & _). destruct Hsame as (_ & Hocc & _).
  induction adjacent as [|adj rest IH]; simpl; [done|].
  rewrite <- Hocc. destruct (occupied_states σ1 !! adj) as [r|]; [|done].
  destruct (same_placement_lookup r) as [o1 o2 (_ & Ht & _)|]; simpl; [|done].
  by rewrite Hn, Ht, IH.
Qed.

Lemma place_habitat s r a1 a2 :
  same_but_habitat a1 a2 →
  same_placement (place σ1 s r a1) (place σ2 s r a2).
Proof.
  intros Ha. destruct Hsame as (Hheap & Hocc & Hpl).
  destruct Ha as (Hn & Ht & Hs). split; [|split]; simpl.
  - apply Forall2_insert; [done|]. unfold set_state.
    case_bool_decide; by repeat split.
  - by rewrite Hocc.
  - by rewrite Hn, Hpl.
Qed.

Lemma for_animal_habitat s animals :
  option_Forall2 same_placement (for_animal s animals σ1) (for_animal s animals σ2).
Proof.
  induction animals as [|r rest IH]; simpl; [by constructor|].
  destruct (same_placement_lookup r) as [a1 a2 Ha|]; simpl; [|constructor].
  destruct Hsame as (_ & Hocc & Hpl).
  destruct Ha as (Hn & Ht & Hs). rewrite <- Hn, <- Hpl, <- Hocc.
  case_bool_decide; [done|]. case_bool_decide; [by constructor|].
  destruct (ADJACENT_STATES !! s) as [adjacent|]; simpl; [|constructor].
  rewrite <- (threat_adjacent_habitat adjacent a1 a2) by done.
  destruct (threat_adjacent σ1 adjacent a1) as [[|]|]; simpl;
    [done| |constructor].
  rewrite <- (reverse_threat_habitat adjacent a1 a2) by done.
  destruct (reverse_threat σ1 adjacent a1) as [[|]|]; simpl;
    [done| |constructor].
  constructor. by apply place_habitat.
Qed.

End Habitat.

Lemma for_state_habitat states animals σ1 σ2 :
  same_placement σ1 σ2 →
  option_Forall2 same_placement
    (for_state states animals σ1) (for_state states animals σ2).
Proof.
  revert σ1 σ2. induction states as [|s rest IH]; intros σ1 σ2 Hsame; simpl.
  - by constructor.
  - destruct (for_animal_habitat σ1 σ2 Hsame s animals) as [τ1 τ2 Hτ|]; simpl.
    + by apply IH.
    + constructor.
Qed.

(** C8. Two stores that are the same except in the habitats of their
    objects, with the same list of animals: both runs return, with the same
    assignment and the same placed names, and every entity ends in the same
    state in both (and with its own habitat, as before the run). *)
Theorem habitat_not_used h1 h2 animals :
  refs_ok h1 animals →
  Forall2 same_but_habitat h1 h2 →
  ∃ σ1 σ2,
    relocate_animals h1 animals = Some σ1
    ∧ relocate_animals h2 animals = Some σ2
    ∧ occupied_states σ1 = occupied_states σ2
    ∧ placed_animals σ1 = placed_animals σ2
    ∧ length (heap σ1) = length (heap σ2)
    ∧ (∀ r a1 a2, heap σ1 !! r = Some a1 → heap σ2 !! r = Some a2 →
         get_state a1 = get_state a2)
    ∧ (∀ r a b, heap σ1 !! r = Some a → h1 !! r = Some b → habitat a = habitat b)
    ∧ (∀ r a b, heap σ2 !! r = Some a → h2 !! r = Some b → habitat a = habitat b).
Proof.
  intros Hrefs Hh.
  assert (Hrefs2 : refs_ok h2 animals).
  { unfold refs_ok in *. by rewrite <- (Forall2_length _ _ _ Hh). }
  destruct (relocate_animals_inv h1 animals Hrefs) as (σ1 & Hrun1 & Hinv1).
  destruct (relocate_animals_inv h2 animals Hrefs2) as (σ2 & Hrun2 & Hinv2).
  exists σ1, σ2. split; [done|]. split; [done|].
  assert (Hsame : same_placement σ1 σ2).
  { assert (H0 : same_placement (start h1) (start h2)) by by split.
    pose proof (for_state_habitat VALID_STATES animals _ _ H0) as Hrel.
    unfold relocate_animals in Hrun1, Hrun2. rewrite Hrun1, Hrun2 in Hrel.
    by inversion Hrel. }
  destruct Hsame as (Hheap & Hocc & Hpl).
  split; [done|]. split; [done|]. split; [by eapply Forall2_length|].
  split.
  { intros r a1 a2 H1 H2.
    by destruct (Forall2_lookup_lr _ _ _ _ _ _ Hheap H1 H2) as (_ & _ & ?). }
  split.
  - intros r a b Ha Hb.
    destruct (inv_identity _ _ _ _ Hinv1 r a Ha) as (a0 & H0 & (_ & ? & _)).
    congruence.
  - intros r a b Ha Hb.
    destruct (inv_identity _ _ _ _ Hinv2 r a Ha) as (a0 & H0 & (_ & ? & _)).
    congruence.
Qed.

Lemma three_animals_moved_same :
  Forall2 same_but_habitat three_animals three_animals_moved.
Proof. by repeat constructor. Defined.

Lemma habitat_not_used_witness :
  refs_ok three_animals [0; 1; 2]
  ∧ Forall2 same_but_habitat three_animals three_animals_moved
  ∧ ∃ σ1 σ2,
      relocate_animals three_animals [0; 1; 2] = Some σ1
      ∧ relocate_animals three_animals_moved [0; 1; 2] = Some σ2
      ∧ occupied_states σ1 = occupied_states σ2
      ∧ placed_animals σ1 = placed_animals σ2
      ∧ length (heap σ1) = length (heap σ2)
      ∧ (∀ r a1 a2, heap σ1 !! r = Some a1 → heap σ2 !! r = Some a2 →
           get_state a1 = get_state a2)
      ∧ (∀ r a b, heap σ1 !! r = Some a → three_animals !! r = Some b →
           habitat a = habitat b)
      ∧ (∀ r a b, heap σ2 !! r = Some a → three_animals_moved !! r = Some b →
           habitat a = habitat b).
Proof.
  split; [exact three_animals_refs_ok|]. split; [exact three_animals_moved_same|].
  exact (habitat_not_used three_animals three_animals_moved [0; 1; 2]
           three_animals_refs_ok three_animals_moved_same).
Defined.

(** ** Sample evaluations *)

Example strip_line :
  Str.strip "  Kangaroo, Grassland ,Dingo
" = "Kangaroo, Grassland ,Dingo".
Proof. by_computation. Qed.

Example load_three_records :
  load_dataset (Some ["Kangaroo, Grassland , Dingo
"; "Fox,Forest
"; "
"; "Emu,Plain,
"; "a,b,c,d"])
  = [ {| name := "Kangaroo"; habitat := "Grassland"; threat := "Dingo";
         state := "ACT" |};
      {| name := "Emu"; habitat := "Plain"; threat := ""; state := "ACT" |} ].
Proof. by_computation. Qed.

(** Two objects named Koala, the second listed first and once more later:
    only the object reached first is placed. *)
Example same_name_placed_once :
  heap <$> relocate_animals [Koala "Forest"; Koala "Zoo"; Dingo "Desert"] [1; 0; 1; 2]
  = Some [ Koala "Forest";
           {| name := "Koala"; habitat := "Zoo"; threat := "Dingo"; state := "NSW" |};
           {| name := "Dingo"; habitat := "Desert"; threat := ""; state := "TAS" |} ].
Proof. by_computation. Qed.

(** A reference to no object is not a Python value: the model gives up. *)
Example dangling_reference :
  relocate_animals [Koala "Forest"] [0; 3] = None.
Proof. by_computation. Qed.

(** * More properties of the program *)

(** ** The scan is first fit *)

Lemma checks_conflicts σ s a :
  occupants_live σ →
  ∃ c1 c2, threat_adjacent σ (adjacent_of s) a = Some c1
           ∧ reverse_threat σ (adjacent_of s) a = Some c2
           ∧ (c1 || c2 = true ↔ conflicts σ s a).
Proof.
  intros Hlive. rewrite threat_adjacent_scan, reverse_threat_scan.
  destruct (scan_adjacent_spec σ (λ o, bool_decide (name o = threat a))
              (adjacent_of s) Hlive) as (c1 & -> & H1).
  destruct (scan_adjacent_spec σ (λ o, bool_decide (threat o = name a))
              (adjacent_of s) Hlive) as (c2 & -> & H2).
  exists c1, c2. split; [done|]. split; [done|]. split.
  - intros Hc. apply orb_true_iff in Hc as [Hc|Hc].
    + apply H1 in Hc as (adj & o & Hin & Ho & Ht).
      apply bool_decide_eq_true in Ht. exists adj, o. auto.
    + apply H2 in Hc as (adj & o & Hin & Ho & Ht).
      apply bool_decide_eq_true in Ht. exists adj, o. auto.
  - intros (adj & o & Hin & Ho & [Hn|Hn]); apply orb_true_iff.
    + left. apply H1. exists adj, o. by rewrite bool_decide_eq_true.
    + right. apply H2. exists adj, o. by rewrite bool_decide_eq_true.
Qed.

(** The scan for a free state places the first animal of the list, among
    those whose name is not placed, that has no conflict there; it places
    nobody when there is none. *)
Lemma for_animal_first s l σ :
  s ∈ VALID_STATES →
  occupants_live σ →
  Forall (λ r, r < length (heap σ)) l →
  occupied_states σ !! s = None →
  (for_animal s l σ = Some σ
   ∧ ∀ r a, r ∈ l → heap σ !! r = Some a → name a ∉ placed_animals σ →
       conflicts σ s a)
  ∨ (∃ l1 r l2 a,
       l = (l1 ++ r :: l2)%list
       ∧ heap σ !! r = Some a
       ∧ (name a ∉ placed_animals σ)
       ∧ ¬ conflicts σ s a
       ∧ (∀ r' a', r' ∈ l1 → heap σ !! r' = Some a' →
            name a' ∉ placed_animals σ → conflicts σ s a')
       ∧ for_animal s l σ = Some (place σ s r a)).
Proof.
  intros Hs Hlive Hrefs Hfree. induction l as [|r l IH].
  - left. split; [done|]. intros r a Hr. by apply elem_of_nil in Hr.
  - apply Forall_cons in Hrefs as [Hr Hrefs]. specialize (IH Hrefs).
    apply lookup_lt_is_Some_2 in Hr as [a Ha].
    assert (Hskip : name a ∈ placed_animals σ ∨ conflicts σ s a →
              for_animal s (r :: l) σ = for_animal s l σ).
    { intros Hwhy. simpl. rewrite Ha. simpl. case_bool_decide; [done|].
      destruct Hwhy as [?|Hc]; [done|].
      rewrite bool_decide_eq_false_2; [|by rewrite not_elem_of_dom].
      rewrite (VALID_STATES_adjacent s Hs). simpl.
      destruct (checks_conflicts σ s a Hlive) as (c1 & c2 & -> & -> & Hiff).
      apply Hiff in Hc. simpl. destruct c1; [done|]. by destruct c2. }
    assert (Hnext : name a ∈ placed_animals σ ∨ conflicts σ s a →
      (for_animal s (r :: l) σ = Some σ
       ∧ ∀ r0 a0, r0 ∈ r :: l → heap σ !! r0 = Some a0 →
           name a0 ∉ placed_animals σ → conflicts σ s a0)
      ∨ (∃ l1 r0 l2 a0,
           (r :: l = l1 ++ r0 :: l2)%list
           ∧ heap σ !! r0 = Some a0
           ∧ (name a0 ∉ placed_animals σ)
           ∧ ¬ conflicts σ s a0
           ∧ (∀ r' a', r' ∈ l1 → heap σ !! r' = Some a' →
                name a' ∉ placed_animals σ → conflicts σ s a')
           ∧ for_animal s (r :: l) σ = Some (place σ s r0 a0))).
    { intros Hwhy. rewrite (Hskip Hwhy).
      assert (Hhead : ∀ a0, heap σ !! r = Some a0 →
                name a0 ∉ placed_animals σ → conflicts σ s a0).
      { intros a0 Ha0 Hn0. assert (a0 = a) as -> by congruence.
        by destruct Hwhy. }
      destruct IH as [[Hrun Hall]|(l1 & r0 & l2 & a0 & -> & H1 & H2 & H3 & H4 & H5)].
      - left. split; [done|]. intros r0 a0 Hin Ha0 Hn0.
        apply elem_of_cons in Hin as [->|Hin]; eauto.
      - right. exists (r :: l1), r0, l2, a0.
        split; [done|]. split; [done|]. split; [done|]. split; [done|].
        split; [|done]. intros r' a' Hin Ha' Hn'.
        apply elem_of_cons in Hin as [->|Hin]; eauto. }
    destruct (decide (name a ∈ placed_animals σ)) as [Hp|Hp]; [by apply Hnext; left|].
    destruct (checks_conflicts σ s a Hlive) as (c1 & c2 & Hc1 & Hc2 & Hiff).
    destruct (c1 || c2) eqn:Hc.
    { apply Hnext. right. by apply Hiff. }
    right. exists [], r, l, a.
    split; [done|]. split; [done|]. split; [done|]. split.
    { intros Hcon. apply Hiff in Hcon. congruence. }
    split. { intros r' a' Hin. by apply elem_of_nil in Hin. }
    simpl. rewrite Ha. simpl. rewrite bool_decide_eq_false_2; [|done].
    rewrite bool_decide_eq_false_2; [|by rewrite not_elem_of_dom].
    rewrite (VALID_STATES_adjacent s Hs). simpl. rewrite Hc1, Hc2. simpl.
    apply orb_false_iff in Hc as [-> ->]. done.
Qed.

Lemma conflicts_persist h0 animals d0 d states σ0 σ s a0 a :
  inv h0 animals d0 σ0 → inv h0 animals d σ → grows states σ0 σ →
  same_keys a0 a →
  conflicts σ0 s a0 → conflicts σ s a.
Proof.
  intros Hinv0 Hinv Hgrows (Hn & Ht) (adj & o0 & Hin & (ra & Hra & Ho0) & Hwhy).
  pose proof (grows_occupied _ _ _ Hgrows adj ra Hra) as Hra'.
  destruct (inv_live _ _ _ _ Hinv adj ra Hra') as [o Ho].
  destruct (identity_stable _ _ _ _ _ _ _ _ _ Hinv0 Hinv Ho0 Ho) as (? & _ & ?).
  exists adj, o. split; [done|]. split; [by exists ra|].
  destruct Hwhy; [left|right]; congruence.
Qed.

Lemma conflicts_start h s a : ¬ conflicts (start h) s a.
Proof.
  intros (adj & o & _ & (r & Hr & _) & _). simpl in Hr.
  by rewrite lookup_empty in Hr.
Qed.

(** The state of the run when the scan for [s] starts and ends, with what
    the scan did. *)
Lemma run_first_fit h animals done s todo :
  refs_ok h animals →
  VALID_STATES = (done ++ s :: todo)%list →
  ∃ σ0 σ1 σ,
    for_state done animals (start h) = Some σ0
    ∧ for_animal s animals σ0 = Some σ1
    ∧ for_state todo animals σ1 = Some σ
    ∧ relocate_animals h animals = Some σ
    ∧ inv h animals done σ0
    ∧ inv h animals VALID_STATES σ
    ∧ grows (s :: todo) σ0 σ
    ∧ occupied_states σ0 !! s = None
    ∧ ((σ1 = σ0 ∧ occupied_states σ !! s = None
        ∧ ∀ r a, r ∈ animals → heap σ0 !! r = Some a →
            name a ∉ placed_animals σ0 → conflicts σ0 s a)
       ∨ (∃ l1 r l2 a,
            animals = (l1 ++ r :: l2)%list
            ∧ heap σ0 !! r = Some a
            ∧ (name a ∉ placed_animals σ0)
            ∧ ¬ conflicts σ0 s a
            ∧ (∀ r' a', r' ∈ l1 → heap σ0 !! r' = Some a' →
                 name a' ∉ placed_animals σ0 → conflicts σ0 s a')
            ∧ σ1 = place σ0 s r a
            ∧ occupied_states σ !! s = Some r)).
Proof.
  intros Hrefs Hcut.
  destruct (run_split h animals done s todo Hrefs Hcut)
    as (σ0 & σ1 & σ & Hrun0 & Hrun1 & Hrun & Hfull & Hinv0 & Hout & Hinv1 & Hinv
        & Hgrows & Hs_done & Hs_todo).
  exists σ0, σ1, σ.
  split; [done|]. split; [done|]. split; [done|]. split; [done|].
  split; [done|]. split; [done|].
  assert (Hfree0 : occupied_states σ0 !! s = None).
  { destruct (occupied_states σ0 !! s) as [r|] eqn:E; [|done].
    destruct Hs_done. by eapply inv_dom. }
  split. { apply (grows_trans [s] todo σ0 σ1 σ); [by eapply outcome_grows|done]. }
  split; [done|].
  assert (Hs : s ∈ VALID_STATES).
  { rewrite Hcut. apply elem_of_app. right. left. }
  destruct (for_animal_first s animals σ0 Hs) as
    [[Hsame Hall]|(l1 & r & l2 & a & Hl & Ha & Hn & Hc & Hbefore & Hplace)];
    [by eapply inv_live| |done| |].
  { unfold refs_ok in Hrefs. by rewrite (inv_length _ _ _ _ Hinv0). }
  - left. assert (σ1 = σ0) as -> by congruence. split; [done|]. split; [|done].
    by rewrite (grows_frame _ _ _ Hgrows s Hs_todo).
  - right. exists l1, r, l2, a. assert (σ1 = place σ0 s r a) as -> by congruence.
    split; [done|]. split; [done|]. split; [done|]. split; [done|].
    split; [done|]. split; [done|].
    rewrite (grows_frame _ _ _ Hgrows s Hs_todo). simpl. by rewrite lookup_insert_eq.
Qed.

(** X1. Cut a run at the iteration for any state [s]. When the scan for
    [s] starts, [s] is free (so the test [state in occupied_states] never
    stops a scan before a placement). The scan then places in [s] the first
    animal of the list, among those whose name is not placed yet, that has
    no conflict with an occupied neighbour of [s]; if every such animal has
    a conflict, it places nobody and [s] stays free to the end of the
    run. *)
Theorem state_filled_first_fit h animals done s todo :
  refs_ok h animals →
  VALID_STATES = (done ++ s :: todo)%list →
  ∃ σ0 σ1 σ,
    for_state done animals (start h) = Some σ0
    ∧ for_animal s animals σ0 = Some σ1
    ∧ for_state todo animals σ1 = Some σ
    ∧ relocate_animals h animals = Some σ
    ∧ occupied_states σ0 !! s = None
    ∧ ((σ1 = σ0 ∧ occupied_states σ !! s = None
        ∧ ∀ r a, r ∈ animals → heap σ0 !! r = Some a →
            name a ∉ placed_animals σ0 → conflicts σ0 s a)
       ∨ (∃ l1 r l2 a,
            animals = (l1 ++ r :: l2)%list
            ∧ heap σ0 !! r = Some a
            ∧ (name a ∉ placed_animals σ0)
            ∧ ¬ conflicts σ0 s a
            ∧ (∀ r' a', r' ∈ l1 → heap σ0 !! r' = Some a' →
                 name a' ∉ placed_animals σ0 → conflicts σ0 s a')
            ∧ σ1 = place σ0 s r a
            ∧ occupied_states σ !! s = Some r)).
Proof.
  intros Hrefs Hcut.
  destruct (run_first_fit h animals done s todo Hrefs Hcut)
    as (σ0 & σ1 & σ & H1 & H2 & H3 & H4 & _ & _ & _ & H5 & H6).
  exists σ0, σ1, σ. auto 10.
Qed.

Lemma state_filled_first_fit_witness :
  refs_ok three_animals [0; 1; 2]
  ∧ VALID_STATES = (["NSW"] ++ "QLD" :: ["VIC"; "TAS"; "SA"; "NT"; "WA"])%list
  ∧ ∃ σ0 σ1 σ,
      for_state ["NSW"] [0; 1; 2] (start three_animals) = Some σ0
      ∧ for_animal "QLD" [0; 1; 2] σ0 = Some σ1
      ∧ for_state ["VIC"; "TAS"; "SA"; "NT"; "WA"] [0; 1; 2] σ1 = Some σ
      ∧ relocate_animals three_animals [0; 1; 2] = Some σ
      ∧ occupied_states σ0 !! "QLD" = None
      ∧ ((σ1 = σ0 ∧ occupied_states σ !! "QLD" = None
          ∧ ∀ r a, r ∈ [0; 1; 2] → heap σ0 !! r = Some a →
              name a ∉ placed_animals σ0 → conflicts σ0 "QLD" a)
         ∨ (∃ l1 r l2 a,
              [0; 1; 2] = (l1 ++ r :: l2)%list
              ∧ heap σ0 !! r = Some a
              ∧ (name a ∉ placed_animals σ0)
              ∧ ¬ conflicts σ0 "QLD" a
              ∧ (∀ r' a', r' ∈ l1 → heap σ0 !! r' = Some a' →
                   name a' ∉ placed_animals σ0 → conflicts σ0 "QLD" a')
              ∧ σ1 = place σ0 "QLD" r a
              ∧ occupied_states σ !! "QLD" = Some r)).
Proof.
  split; [exact three_animals_refs_ok|]. split; [reflexivity|].
  apply (state_filled_first_fit three_animals [0; 1; 2] ["NSW"] "QLD"
           ["VIC"; "TAS"; "SA"; "NT"; "WA"]);
    [exact three_animals_refs_ok | reflexivity].
Defined.

(** ** What a run leaves empty *)

Lemma run_maximal h animals s :
  refs_ok h animals →
  s ∈ VALID_STATES →
  ∃ σ, relocate_animals h animals = Some σ
       ∧ inv h animals VALID_STATES σ
       ∧ (occupied_states σ !! s = None →
          ∀ r a, r ∈ animals → heap σ !! r = Some a →
            name a ∉ placed_animals σ → conflicts σ s a).
Proof.
  intros Hrefs Hs. apply list_elem_of_split in Hs as (done & todo & Hcut).
  destruct (run_first_fit h animals done s todo Hrefs Hcut)
    as (σ0 & σ1 & σ & _ & _ & _ & Hrun & Hinv0 & Hinv & Hgrows & _ & Hcase).
  exists σ. split; [done|]. split; [done|]. intros Hnone r a Hr Ha Hn.
  destruct Hcase as [(_ & _ & Hall)|(l1 & r1 & l2 & a1 & _ & _ & _ & _ & _ & _ & Hocc)];
    [|congruence].
  assert (H0 : is_Some (heap σ0 !! r)).
  { apply lookup_lt_is_Some. rewrite (inv_length _ _ _ _ Hinv0).
    rewrite <- (inv_length _ _ _ _ Hinv). by eapply lookup_lt_Some. }
  destruct H0 as [a0 Ha0].
  destruct (identity_stable _ _ _ _ _ _ _ _ _ Hinv0 Hinv Ha0 Ha) as (Hname & _ & Hthreat).
  eapply conflicts_persist; [exact Hinv0|exact Hinv|exact Hgrows|by split|].
  apply (Hall r a0 Hr Ha0). rewrite Hname. intros Hp. apply Hn.
  by apply (grows_placed _ _ _ Hgrows).
Qed.

(** X2. A run leaves a valid state empty only when every entity of the
    list whose name was not placed conflicts there with the final occupant
    of an adjacent state: no entity is left out of a state it could have
    taken. *)
Theorem empty_state_only_by_conflict h animals s :
  refs_ok h animals →
  s ∈ VALID_STATES →
  ∃ σ, relocate_animals h animals = Some σ
       ∧ (occupied_states σ !! s = None →
          ∀ r a, r ∈ animals → heap σ !! r = Some a →
            name a ∉ placed_animals σ → conflicts σ s a).
Proof.
  intros Hrefs Hs.
  destruct (run_maximal h animals s Hrefs Hs) as (σ & Hrun & _ & Hmax).
  by exists σ.
Qed.

Lemma SA_valid : "SA" ∈ VALID_STATES.
Proof. by_computation. Defined.

Lemma empty_state_only_by_conflict_witness :
  refs_ok three_animals [0; 1; 2]
  ∧ "SA" ∈ VALID_STATES
  ∧ ∃ σ, relocate_animals three_animals [0; 1; 2] = Some σ
       ∧ (occupied_states σ !! "SA" = None →
          ∀ r a, r ∈ [0; 1; 2] → heap σ !! r = Some a →
            name a ∉ placed_animals σ → conflicts σ "SA" a).
Proof.
  split; [exact three_animals_refs_ok|]. split; [exact SA_valid|].
  exact (empty_state_only_by_conflict three_animals [0; 1; 2] "SA"
           three_animals_refs_ok SA_valid).
Defined.



(** X4. The first entity of a non-empty list is always placed, in NSW:
    NSW is scanned first, when no state is occupied and nothing can
    conflict. *)
Theorem first_animal_goes_to_NSW h r rest :
  refs_ok h (r :: rest) →
  ∃ σ a, relocate_animals h (r :: rest) = Some σ
         ∧ occupied_states σ !! "NSW" = Some r
         ∧ heap σ !! r = Some a
         ∧ get_state a = "NSW"
         ∧ name a ∈ placed_animals σ.
Proof.
  intros Hrefs.
  destruct (run_first_fit h (r :: rest) [] "NSW" ["QLD"; "VIC"; "TAS"; "SA"; "NT"; "WA"]
              Hrefs eq_refl)
    as (σ0 & σ1 & σ & Hrun0 & _ & _ & Hrun & Hinv0 & Hinv & _ & _ & Hcase).
  simpl in Hrun0. injection Hrun0 as <-.
  assert (Hr : is_Some (h !! r)).
  { apply lookup_lt_is_Some. unfold refs_ok in Hrefs.
    by apply Forall_cons in Hrefs as [? _]. }
  destruct Hr as [a0 Ha0].
  assert (Hocc : occupied_states σ !! "NSW" = Some r).
  { destruct Hcase as [(_ & _ & Hall)|(l1 & r1 & l2 & a1 & Hl & _ & _ & _ & Hbefore & _ & Hocc)].
    - destruct (conflicts_start h "NSW" a0). apply (Hall r a0); [left|done|].
      simpl. apply not_elem_of_empty.
    - destruct l1 as [|r' l1].
      + simpl in Hl. by injection Hl as <- _.
      + simpl in Hl. injection Hl as <- _.
        destruct (conflicts_start h "NSW" a0). apply (Hbefore r a0); [left|done|].
        simpl. apply not_elem_of_empty. }
  destruct (inv_occupied _ _ _ _ Hinv "NSW" r Hocc) as (_ & a & Ha & Hst & Hp).
  by exists σ, a.
Qed.

Lemma first_animal_goes_to_NSW_witness :
  refs_ok three_animals [0; 1; 2]
  ∧ ∃ σ a, relocate_animals three_animals [0; 1; 2] = Some σ
           ∧ occupied_states σ !! "NSW" = Some 0
           ∧ heap σ !! 0 = Some a
           ∧ get_state a = "NSW"
           ∧ name a ∈ placed_animals σ.
Proof.
  split; [exact three_animals_refs_ok|].
  exact (first_animal_goes_to_NSW three_animals 0 [1; 2] three_animals_refs_ok).
Defined.

(** ** What a run does not touch *)

(** X5. A run writes nothing but the [state] of the entities it places:
    the store keeps its length, every object keeps its name, habitat and
    threat, an object that is not the occupant of its own [state] is exactly
    as it was at the call, and so is every object that the list does not
    refer to. *)
Theorem run_writes_only_placed_states h animals :
  refs_ok h animals →
  ∃ σ, relocate_animals h animals = Some σ
       ∧ length (heap σ) = length h
       ∧ (∀ r a, heap σ !! r = Some a →
            ∃ a0, h !! r = Some a0 ∧ same_identity a a0)
       ∧ (∀ r a, heap σ !! r = Some a →
            occupied_states σ !! state a ≠ Some r → h !! r = Some a)
       ∧ (∀ r, r ∉ animals → heap σ !! r = h !! r).
Proof.
  intros Hrefs.
  destruct (relocate_animals_inv h animals Hrefs) as (σ & Hrun & Hinv).
  exists σ. split; [done|]. split; [by eapply inv_length|].
  split; [by eapply inv_identity|].
  assert (Hkeep : ∀ r a, heap σ !! r = Some a →
            occupied_states σ !! state a ≠ Some r → h !! r = Some a).
  { intros r a Ha Hno. by destruct (inv_state _ _ _ _ Hinv r a Ha). }
  split; [done|]. intros r Hr.
  destruct (heap σ !! r) as [a|] eqn:Ha.
  - symmetry. apply (Hkeep r a Ha). intros Hocc.
    by destruct (inv_occupied _ _ _ _ Hinv _ _ Hocc) as (? & _).
  - symmetry. apply lookup_ge_None. rewrite <- (inv_length _ _ _ _ Hinv).
    by apply lookup_ge_None.
Qed.

Lemma run_writes_only_placed_states_witness :
  refs_ok three_animals [0; 2]
  ∧ ∃ σ, relocate_animals three_animals [0; 2] = Some σ
       ∧ length (heap σ) = length three_animals
       ∧ (∀ r a, heap σ !! r = Some a →
            ∃ a0, three_animals !! r = Some a0 ∧ same_identity a a0)
       ∧ (∀ r a, heap σ !! r = Some a →
            occupied_states σ !! state a ≠ Some r → three_animals !! r = Some a)
       ∧ (∀ r, r ∉ [0; 2] → heap σ !! r = three_animals !! r).
Proof.
  assert (Hrefs : refs_ok three_animals [0; 2]) by by_computation.
  split; [exact Hrefs|].
  exact (run_writes_only_placed_states three_animals [0; 2] Hrefs).
Defined.

(** ** How many animals a run places *)

(** A property kept by every placement is kept by the outer loop. *)
Lemma for_state_invariant (P : engine → Prop) h0 animals :
  refs_ok h0 animals →
  (∀ done σ s r a,
     inv h0 animals done σ → s ∈ VALID_STATES → P σ →
     r ∈ animals → heap σ !! r = Some a → name a ∉ placed_animals σ →
     occupied_states σ !! s = None →
     P (place σ s r a)) →
  ∀ states, states ⊆ VALID_STATES →
  ∀ done σ, inv h0 animals done σ → P σ →
  ∃ σ', for_state states animals σ = Some σ' ∧ P σ'.
Proof.
  intros Hrefs Hstep states. induction states as [|s rest IH];
    intros Hsub done σ Hinv HP.
  - by exists σ.
  - assert (Hs : s ∈ VALID_STATES) by (apply Hsub; left).
    assert (Hrest : rest ⊆ VALID_STATES).
    { intros x Hx. apply Hsub. by right. }
    destruct (for_animal_outcome s animals σ Hs) as (σ1 & Hrun & Hout).
    { by eapply inv_live. }
    { unfold refs_ok in Hrefs. by rewrite (inv_length _ _ _ _ Hinv). }
    pose proof (inv_outcome _ _ _ _ _ _ Hinv Hs Hout) as Hinv1.
    assert (HP1 : P σ1).
    { destruct Hout as [|r a Hr Ha Hn Hfree _]; [done|]. by eapply Hstep. }
    destruct (IH Hrest (s :: done) σ1 Hinv1 HP1) as (σ2 & Hrun2 & HP2).
    exists σ2. simpl. rewrite Hrun. by simpl.
Qed.

Lemma size_list_to_set_le (l : list string) :
  (size (list_to_set l : gset string) ≤ length l)%nat.
Proof.
  induction l as [|x l IH].
  - change (list_to_set [] : gset string) with (∅ : gset string).
    by rewrite size_empty.
  - rewrite list_to_set_cons, size_union_alt, size_singleton. simpl length.
    assert (size (list_to_set l ∖ {[x]} : gset string)
            ≤ size (list_to_set l : gset string))%nat.
    { apply subseteq_size. intros y Hy. by apply elem_of_difference in Hy as [? _]. }
    lia.
Qed.

Lemma omap_length_le {A B} (f : A → option B) (l : list A) :
  (length (omap f l) ≤ length l)%nat.
Proof.
  induction l as [|x l IH]; [done|]. change (omap f (x :: l)) with
    (match f x with Some y => y :: omap f l | None => omap f l end).
  destruct (f x); simpl; lia.
Qed.


Lemma relocated_insert (l : list FictionalAnimal) r a a' :
  l !! r = Some a → get_state a = ACT → get_state a' ≠ ACT →
  relocated (<[r := a']> l) = S (relocated l).
Proof.
  revert r. induction l as [|b l IH]; intros r Hr Ha Ha'; [done|].
  destruct r as [|r]; simpl in *.
  - injection Hr as ->. rewrite bool_decide_eq_true_2 by done.
    by rewrite (bool_decide_eq_false_2 (get_state a ≠ ACT)) by tauto.
  - by rewrite (IH r Hr Ha Ha').
Qed.

(** The two counts of a run: names and occupied states, and, when every
    object starts in [ACT], objects that left [ACT]. *)
Lemma run_counts h animals :
  refs_ok h animals →
  ∃ σ, relocate_animals h animals = Some σ
       ∧ size (placed_animals σ) = size (occupied_states σ)
       ∧ (Forall (λ a, state a = ACT) h →
          relocated (heap σ) = size (occupied_states σ)).
Proof.
  intros Hrefs.
  destruct (for_state_invariant
    (λ σ, size (placed_animals σ) = size (occupied_states σ)
          ∧ (Forall (λ a, state a = ACT) h →
             relocated (heap σ) = size (occupied_states σ)))
    h animals Hrefs) with (states := VALID_STATES) (done := @nil string) (σ := start h)
    as (σ & Hrun & HP).
  - intros done σ s r a Hinv Hs [Hsize Hrel] Hr Ha Hn Hfree. simpl. split.
    + rewrite size_union by (by apply disjoint_singleton_l).
      rewrite size_singleton, map_size_insert_None by done. lia.
    + intros Hfresh. rewrite map_size_insert_None by done.
      rewrite <- (Hrel Hfresh). apply (relocated_insert _ r a); [done| |].
      * destruct (inv_state _ _ _ _ Hinv r a Ha) as [H0|Hocc].
        -- rewrite Forall_lookup in Hfresh. exact (Hfresh r a H0).
        -- destruct (inv_occupied _ _ _ _ Hinv _ _ Hocc) as (_ & b & Hb & _ & Hp).
           congruence.
      * unfold get_state. rewrite set_state_valid by done. simpl.
        intros ->. by apply ACT_not_valid.
  - done.
  - apply inv_start.
  - simpl. split; [done|]. intros Hfresh. rewrite map_size_empty.
    clear Hrefs. induction Hfresh as [|a l Ha _ IH]; simpl; [done|].
    rewrite IH. by rewrite bool_decide_eq_false_2 by (unfold get_state; tauto).
  - by exists σ.
Qed.

Lemma occupied_at_most_seven h animals done σ :
  inv h animals done σ → done ⊆ VALID_STATES →
  (size (occupied_states σ) ≤ 7)%nat.
Proof.
  intros Hinv Hsub. rewrite <- size_dom.
  transitivity (size (list_to_set VALID_STATES : gset string)).
  - apply subseteq_size. intros s Hs. apply elem_of_dom in Hs as [r Hr].
    apply elem_of_list_to_set, Hsub. by eapply inv_dom.
  - apply (size_list_to_set_le VALID_STATES).
Qed.

Lemma placed_at_most_listed h animals done σ :
  inv h animals done σ → (size (placed_animals σ) ≤ length animals)%nat.
Proof.
  intros Hinv.
  transitivity (size (list_to_set (omap (λ r, name <$> h !! r) animals) : gset string)).
  - apply subseteq_size. intros n Hn.
    destruct (inv_placed _ _ _ _ Hinv n Hn) as (s & a & (r & Hr & Ha) & <-).
    destruct (inv_occupied _ _ _ _ Hinv s r Hr) as (Hin & _).
    destruct (inv_identity _ _ _ _ Hinv r a Ha) as (a0 & Ha0 & (Hname & _)).
    apply elem_of_list_to_set, list_elem_of_omap. exists r. split; [done|].
    by rewrite Ha0, Hname.
  - etrans; [apply size_list_to_set_le|]. apply omap_length_le.
Qed.

(** X6. A run places at most one entity per valid state and per name:
    the occupied states are valid states, there are as many of them as
    placed names, at most seven, and at most as many as the list has
    entries. *)
Theorem placements_bounded h animals :
  refs_ok h animals →
  ∃ σ, relocate_animals h animals = Some σ
       ∧ (∀ s, is_Some (occupied_states σ !! s) → s ∈ VALID_STATES)
       ∧ size (occupied_states σ) = size (placed_animals σ)
       ∧ (size (occupied_states σ) ≤ 7)%nat
       ∧ (size (occupied_states σ) ≤ length animals)%nat.
Proof.
  intros Hrefs.
  destruct (relocate_animals_inv h animals Hrefs) as (σ & Hrun & Hinv).
  destruct (run_counts h animals Hrefs) as (σ' & Hrun' & Hsize & _).
  assert (σ' = σ) as -> by congruence.
  exists σ. split; [done|]. split.
  { intros s [r Hr]. by eapply inv_dom. }
  split; [done|]. split; [by eapply occupied_at_most_seven|].
  rewrite <- Hsize. by eapply placed_at_most_listed.
Qed.

Lemma placements_bounded_witness :
  refs_ok three_animals [0; 1; 2]
  ∧ ∃ σ, relocate_animals three_animals [0; 1; 2] = Some σ
       ∧ (∀ s, is_Some (occupied_states σ !! s) → s ∈ VALID_STATES)
       ∧ size (occupied_states σ) = size (placed_animals σ)
       ∧ (size (occupied_states σ) ≤ 7)%nat
       ∧ (size (occupied_states σ) ≤ length [0; 1; 2])%nat.
Proof.
  split; [exact three_animals_refs_ok|].
  exact (placements_bounded three_animals [0; 1; 2] three_animals_refs_ok).
Defined.

(** ** The loader and [main] *)

Lemma load_dataset_omap (lines : list string) :
  load_dataset (Some lines) = omap entity_of_record lines.
Proof. simpl. by rewrite read_lines_spec. Qed.

Lemma load_dataset_ACT (file : option (list string)) :
  Forall (λ a, state a = ACT) (load_dataset file).
Proof.
  destruct file as [lines|]; [|constructor].
  rewrite load_dataset_omap. apply Forall_forall. intros a Ha.
  apply list_elem_of_omap in Ha as (line & _ & Hline).
  unfold entity_of_record in Hline.
  destruct (fields line) as [|x [|y [|z [|w l]]]]; try discriminate.
  by injection Hline as <-.
Qed.



(** X7. The loader is a homomorphism from files to lists of entities:
    loading the records of two files one after the other gives the entities
    of the first followed by those of the second. Every loaded entity is in
    the state [ACT], and there are at most as many entities as records. *)
Theorem load_dataset_concat (lines1 lines2 : list string) :
  load_dataset (Some (lines1 ++ lines2)%list)
  = (load_dataset (Some lines1) ++ load_dataset (Some lines2))%list
  ∧ Forall (λ a, get_state a = ACT) (load_dataset (Some (lines1 ++ lines2)%list))
  ∧ (length (load_dataset (Some (lines1 ++ lines2)%list))
     ≤ length lines1 + length lines2)%nat.
Proof.
  split; [|split].
  - rewrite !load_dataset_omap. apply omap_app.
  - apply load_dataset_ACT.
  - rewrite load_dataset_omap, <- length_app. apply omap_length_le.
Qed.


(** ** Strings: append, reverse, split and join *)

Lemma append_nil_l (s : string) : "" ++ s = s.
Proof. reflexivity. Qed.

Lemma append_cons (a : ascii) (s t : string) :
  String a s ++ t = String a (s ++ t).
Proof. reflexivity. Qed.

Lemma append_nil_r (s : string) : s ++ "" = s.
Proof. induction s as [|a s IH]; [done|]. by rewrite append_cons, IH. Qed.

Lemma append_assoc (s t u : string) : (s ++ t) ++ u = s ++ (t ++ u).
Proof.
  induction s as [|a s IH]; [done|]. by rewrite !append_cons, IH.
Qed.

Lemma rev_app_append (s t : string) :
  String.rev_app s t = String.rev s ++ t.
Proof.
  unfold String.rev. revert t. induction s as [|a s IH]; intros t; simpl; [done|].
  rewrite (IH (String a t)), (IH (String a "")), append_assoc. done.
Qed.

Lemma rev_append (s t : string) :
  String.rev (s ++ t) = String.rev t ++ String.rev s.
Proof.
  unfold String.rev. generalize "" at 1 3. induction s as [|a s IH]; intros acc.
  - rewrite append_nil_l. simpl. apply rev_app_append.
  - rewrite append_cons. simpl. apply IH.
Qed.

Lemma rev_rev (s : string) : String.rev (String.rev s) = s.
Proof.
  induction s as [|a s IH]; [done|].
  change (String.rev (String a s)) with (String.rev_app s (String a "")).
  rewrite rev_app_append, rev_append, IH. done.
Qed.

Lemma count_append (c : ascii) (s t : string) :
  Str.count c (s ++ t) = Str.count c s + Str.count c t.
Proof.
  induction s as [|a s IH]; [done|]. rewrite append_cons. simpl. rewrite IH. lia.
Qed.

Lemma count_rev (c : ascii) (s : string) :
  Str.count c (String.rev s) = Str.count c s.
Proof.
  induction s as [|a s IH]; [done|].
  change (String.rev (String a s)) with (String.rev_app s (String a "")).
  rewrite rev_app_append, count_append, IH. simpl. lia.
Qed.

Lemma split_not_nil (sep : ascii) (s : string) : Str.split sep s ≠ [].
Proof.
  destruct s as [|c r]; simpl; [done|].
  case_bool_decide; [done|]. by destruct (Str.split sep r).
Qed.

Lemma join_split (sep : ascii) (s : string) :
  join (String sep "") (Str.split sep s) = s.
Proof.
  induction s as [|c r IH]; [done|]. simpl Str.split.
  pose proof (split_not_nil sep r) as Hne.
  case_bool_decide as Hc.
  - subst c. destruct (Str.split sep r) as [|w ws]; [done|].
    change (join (String sep "") ("" :: w :: ws))
      with ("" ++ String sep "" ++ join (String sep "") (w :: ws)).
    by rewrite IH.
  - destruct (Str.split sep r) as [|w ws]; [done|].
    destruct ws as [|w' ws].
    + simpl in *. by rewrite IH.
    + change (join (String sep "") (String c w :: w' :: ws))
        with (String c w ++ String sep "" ++ join (String sep "") (w' :: ws)).
      change (join (String sep "") (w :: w' :: ws))
        with (w ++ String sep "" ++ join (String sep "") (w' :: ws)) in IH.
      by rewrite append_cons, IH.
Qed.

Lemma split_no_sep (sep : ascii) (s : string) :
  Forall (λ f, Str.count sep f = 0) (Str.split sep s).
Proof.
  induction s as [|c r IH]; simpl.
  - by repeat constructor.
  - case_bool_decide as Hc.
    + by constructor.
    + destruct (Str.split sep r) as [|w ws].
      { constructor; [|constructor]. simpl. by rewrite bool_decide_eq_false_2. }
      apply Forall_cons in IH as [Hw Hws]. constructor; [|done].
      simpl. by rewrite bool_decide_eq_false_2, Hw.
Qed.

(** X9. The fields of a record hold no comma, there is at least one, and
    joining them with commas gives back the stripped line: splitting loses
    nothing and invents nothing. *)
Theorem fields_join_back (line : string) :
  join "," (fields line) = Str.strip line
  ∧ Forall (λ f, Str.count "," f = 0) (fields line)
  ∧ fields line ≠ [].
Proof.
  split; [apply join_split|]. split; [apply split_no_sep|apply split_not_nil].
Qed.

(** ** Stripping *)

Lemma count_cons_ne (c a : ascii) (s : string) :
  a ≠ c → Str.count c (String a s) = Str.count c s.
Proof. intros Hne. simpl. by rewrite bool_decide_eq_false_2. Qed.

(** [lstrip_gen] cuts a prefix made of whitespace bytes only and leaves a
    string with no whitespace ahead. *)
Lemma lstrip_gen_spec (back : bool) (s : string) :
  (∃ p, s = p ++ Str.lstrip_gen back s
        ∧ ∀ c, not_space_byte c → Str.count c p = 0)
  ∧ no_space_ahead back (Str.lstrip_gen back s).
Proof.
  remember (String.length s) as n eqn:Hn.
  revert s Hn. induction n as [n IH] using lt_wf_ind. intros s ->.
  destruct s as [|a s1]; [split; [by exists ""|done]|].
  simpl Str.lstrip_gen. destruct (Str.space1 a) eqn:H1.
  { destruct (IH (String.length s1)) with (s := s1) as [(p & Hp & Hcount) Hclean];
      [simpl; lia|done|].
    split; [|done]. exists (String a p). rewrite append_cons, <- Hp.
    split; [done|]. intros c Hc. rewrite count_cons_ne; [by apply Hcount|].
    intros ->. destruct Hc as (Hc & _). congruence. }
  destruct s1 as [|b s2]; [split; [by exists ""|done]|].
  destruct (if back then Str.space2 b a else Str.space2 a b) eqn:H2.
  { destruct (IH (String.length s2)) with (s := s2) as [(p & Hp & Hcount) Hclean];
      [simpl; lia|done|].
    split; [|done]. exists (String a (String b p)). rewrite !append_cons, <- Hp.
    split; [done|]. intros c Hc. rewrite !count_cons_ne; [by apply Hcount|..].
    - intros ->. destruct Hc as (_ & Hc & _).
      destruct (Hc a) as [? ?]. destruct back; congruence.
    - intros ->. destruct Hc as (_ & Hc & _).
      destruct (Hc b) as [? ?]. destruct back; congruence. }
  destruct s2 as [|c s3]; [split; [by exists ""|done]|].
  destruct (if back then Str.space3 c b a else Str.space3 a b c) eqn:H3.
  { destruct (IH (String.length s3)) with (s := s3) as [(p & Hp & Hcount) Hclean];
      [simpl; lia|done|].
    split; [|done]. exists (String a (String b (String c p))).
    rewrite !append_cons, <- Hp.
    split; [done|]. intros x Hx. rewrite !count_cons_ne; [by apply Hcount|..].
    - intros ->. destruct Hx as (_ & _ & Hx).
      destruct (Hx a b) as (? & ? & ?), (Hx b a) as (? & ? & ?).
      destruct back; congruence.
    - intros ->. destruct Hx as (_ & _ & Hx).
      destruct (Hx a c) as (? & ? & ?), (Hx c a) as (? & ? & ?).
      destruct back; congruence.
    - intros ->. destruct Hx as (_ & _ & Hx).
      destruct (Hx b c) as (? & ? & ?), (Hx c b) as (? & ? & ?).
      destruct back; congruence. }
  split; [by exists ""|]. simpl. by rewrite H2, H3.
Qed.

Lemma no_space_ahead_fixed (back : bool) (s : string) :
  no_space_ahead back s → Str.lstrip_gen back s = s.
Proof.
  destruct s as [|a [|b [|c s3]]]; simpl; [done|..].
  - by intros [-> _].
  - by intros (-> & -> & _).
  - by intros (-> & -> & ->).
Qed.

Lemma no_space_ahead_prefix (back : bool) (u q : string) :
  no_space_ahead back (u ++ q) → no_space_ahead back u.
Proof.
  destruct u as [|a [|b [|c u3]]]; [done|..]; rewrite ?append_cons; simpl.
  - by intros [? _].
  - by intros (? & ? & _).
  - done.
Qed.

Lemma strip_count (c : ascii) (s : string) :
  not_space_byte c → Str.count c (Str.strip s) = Str.count c s.
Proof.
  intros Hc. unfold Str.strip, Str.rstrip, Str.lstrip.
  destruct (lstrip_gen_spec false s) as [(p & Hp & Hcount) _].
  set (t := Str.lstrip_gen false s) in *.
  destruct (lstrip_gen_spec true (String.rev t)) as [(q & Hq & Hcount') _].
  rewrite count_rev.
  assert (Ht : Str.count c (String.rev t) = Str.count c q
               + Str.count c (Str.lstrip_gen true (String.rev t))).
  { rewrite Hq at 1. apply count_append. }
  rewrite count_rev, (Hcount' c Hc) in Ht.
  assert (Hs : Str.count c s = Str.count c p + Str.count c t).
  { rewrite Hp at 1. apply count_append. }
  rewrite (Hcount c Hc) in Hs. lia.
Qed.

Lemma strip_strip (s : string) : Str.strip (Str.strip s) = Str.strip s.
Proof.
  unfold Str.strip, Str.rstrip, Str.lstrip.
  destruct (lstrip_gen_spec false s) as [_ Hclean].
  set (t := Str.lstrip_gen false s) in *.
  destruct (lstrip_gen_spec true (String.rev t)) as [(q & Hq & _) Hclean'].
  set (w := Str.lstrip_gen true (String.rev t)) in *.
  assert (Ht : t = String.rev w ++ String.rev q).
  { rewrite <- (rev_rev t), Hq. apply rev_append. }
  rewrite Ht in Hclean. apply no_space_ahead_prefix in Hclean.
  rewrite (no_space_ahead_fixed false _ Hclean), rev_rev.
  by rewrite (no_space_ahead_fixed true _ Hclean').
Qed.

Lemma comma_not_space : not_space_byte ",".
Proof.
  split; [done|]. split.
  - intros b. split; [done|]. unfold Str.space2.
    by destruct (Str.code b =? 194)%N.
  - intros a b. split; [done|]. unfold Str.space3. split.
    + by destruct (Str.code a =? 225)%N, (Str.code a =? 226)%N,
        (Str.code a =? 227)%N.
    + simpl. by destruct (Str.code a =? 225)%N, (Str.code a =? 226)%N,
        (Str.code a =? 227)%N, (Str.code b =? 154)%N, (Str.code b =? 128)%N,
        (Str.code b =? 129)%N.
Qed.

(** X10. Stripping a line never changes its number of commas, so the
    number of fields of a record is one more than the number of commas of
    the raw line, and a record gives an entity exactly when its line holds
    two commas. *)
Theorem record_accepted_iff_two_commas (line : string) :
  Str.count "," (Str.strip line) = Str.count "," line
  ∧ length (fields line) = S (Str.count "," line)
  ∧ (is_Some (entity_of_record line) ↔ Str.count "," line = 2).
Proof.
  pose proof (strip_count "," line comma_not_space) as Hcount.
  assert (Hlen : length (fields line) = S (Str.count "," line)).
  { unfold fields. by rewrite split_length, Hcount. }
  split; [done|]. split; [done|].
  rewrite entity_of_record_Some, Hlen. lia.
Qed.

(** X11. Stripping is idempotent, so the fields of an entity are trimmed:
    building an entity again from the fields of one that [__init__] built
    gives the same entity. *)
Theorem init_fields_trimmed (name0 habitat0 threat0 : string) :
  Str.strip (Str.strip name0) = Str.strip name0
  ∧ let a := __init__ name0 habitat0 threat0 in
    __init__ (name a) (habitat a) (threat a) = a.
Proof.
  split; [apply strip_strip|]. unfold __init__. simpl. by rewrite !strip_strip.
Qed.

(** ** The display *)

Lemma append_newline_inj (s1 s2 t1 t2 : string) :
  Str.count (ascii_of_nat 10) s1 = 0 → Str.count (ascii_of_nat 10) s2 = 0 →
  s1 ++ newline ++ t1 = s2 ++ newline ++ t2 →
  s1 = s2 ∧ t1 = t2.
Proof.
  change (newline ++ t1) with (String (ascii_of_nat 10) t1).
  change (newline ++ t2) with (String (ascii_of_nat 10) t2).
  revert s2. induction s1 as [|a s1 IH]; intros [|b s2] H1 H2 Heq.
  - rewrite !append_nil_l in Heq. by injection Heq as ->.
  - rewrite append_nil_l, append_cons in Heq. injection Heq as <- _.
    simpl in H2. by rewrite ?bool_decide_eq_true_2 in H2.
  - rewrite append_nil_l, append_cons in Heq. injection Heq as -> _.
    simpl in H1. by rewrite ?bool_decide_eq_true_2 in H1.
  - rewrite !append_cons in Heq. injection Heq as -> Heq.
    simpl in H1, H2. destruct (IH s2) as [-> ->]; [lia..|done|done].
Qed.

(** X12. [__str__] shows an animal without loss when its name, habitat and
    threat are each on one line: two such animals with the same display are
    the same in every field. *)
Theorem str_injective (a b : FictionalAnimal) :
  Forall (λ f, Str.count (ascii_of_nat 10) f = 0)
    [name a; habitat a; threat a; name b; habitat b; threat b] →
  __str__ a = __str__ b →
  a = b.
Proof.
  intros Hnl Heq. destruct a as [n1 h1 t1 s1], b as [n2 h2 t2 s2].
  unfold __str__ in Heq. simpl in *.
  apply Forall_cons in Hnl as [Hn1 Hnl]. apply Forall_cons in Hnl as [Hh1 Hnl].
  apply Forall_cons in Hnl as [Ht1 Hnl]. apply Forall_cons in Hnl as [Hn2 Hnl].
  apply Forall_cons in Hnl as [Hh2 Hnl]. apply Forall_cons in Hnl as [Ht2 _].
  apply append_newline_inj in Heq as [-> Heq]; [|done..].
  apply (inj (String.app "   Habitat : ")) in Heq.
  apply append_newline_inj in Heq as [-> Heq]; [|done..].
  apply (inj (String.app "   Threat  : ")) in Heq.
  apply append_newline_inj in Heq as [-> Heq]; [|done..].
  apply (inj (String.app "   State   : ")) in Heq. by subst.
Qed.

Lemma str_injective_witness :
  Forall (λ f, Str.count (ascii_of_nat 10) f = 0)
    [name Wombat; habitat Wombat; threat Wombat;
     name Wombat; habitat Wombat; threat Wombat]
  ∧ __str__ Wombat = __str__ Wombat
  ∧ Wombat = Wombat.
Proof.
  assert (H : Forall (λ f, Str.count (ascii_of_nat 10) f = 0)
                [name Wombat; habitat Wombat; threat Wombat;
                 name Wombat; habitat Wombat; threat Wombat])
    by (repeat constructor).
  split; [exact H|]. split; [reflexivity|].
  exact (str_injective Wombat Wombat H eq_refl).
Defined.

Example str_of_kangaroo :
  __str__ {| name := "Kangaroo"; habitat := "Grassland"; threat := "Dingo";
             state := "NSW" |}
  = "Kangaroo
   Habitat : Grassland
   Threat  : Dingo
   State   : NSW".
Proof. reflexivity. Qed.

(** ** Only names and threats decide *)

Section Keys.

Variables σ1 σ2 : engine.
Hypothesis Hsame : same_decisions σ1 σ2.

Lemma same_decisions_lookup (r : nat) :
  option_Forall2 same_keys (heap σ1 !! r) (heap σ2 !! r).
Proof. destruct Hsame as (Hheap & _). by apply Forall2_lookup. Qed.

Lemma scan_adjacent_keys test1 test2 adjacent :
  (∀ o1 o2, same_keys o1 o2 → test1 o1 = test2 o2) →
  scan_adjacent σ1 test1 adjacent = scan_adjacent σ2 test2 adjacent.
Proof.
  intros Htest. destruct Hsame as (_ & Hocc & _).
  induction adjacent as [|adj rest IH]; simpl; [done|].
  rewrite <- Hocc. destruct (occupied_states σ1 !! adj) as [r|]; [|done].
  destruct (same_decisions_lookup r) as [o1 o2 Ho|]; simpl; [|done].
  by rewrite (Htest o1 o2 Ho), IH.
Qed.

Lemma place_keys s r a1 a2 :
  same_keys a1 a2 → same_decisions (place σ1 s r a1) (place σ2 s r a2).
Proof.
  intros (Hn & Ht). destruct Hsame as (Hheap & Hocc & Hpl).
  split; [|split]; simpl.
  - apply Forall2_insert; [done|]. unfold set_state.
    case_bool_decide; by split.
  - by rewrite Hocc.
  - by rewrite Hn, Hpl.
Qed.

Lemma for_animal_keys s animals :
  option_Forall2 same_decisions (for_animal s animals σ1) (for_animal s animals σ2).
Proof.
  induction animals as [|r rest IH]; simpl; [by constructor|].
  destruct (same_decisions_lookup r) as [a1 a2 Ha|]; simpl; [|constructor].
  destruct Hsame as (_ & Hocc & Hpl).
  pose proof Ha as (Hn & Ht). rewrite <- Hn, <- Hpl, <- Hocc.
  case_bool_decide; [done|]. case_bool_decide; [by constructor|].
  destruct (ADJACENT_STATES !! s) as [adjacent|]; simpl; [|constructor].
  rewrite !threat_adjacent_scan, !reverse_threat_scan.
  rewrite <- (scan_adjacent_keys (λ o, bool_decide (name o = threat a1))
                (λ o, bool_decide (name o = threat a2)) adjacent)
    by (intros o1 o2 (-> & _); by rewrite Ht).
  rewrite <- (scan_adjacent_keys (λ o, bool_decide (threat o = name a1))
                (λ o, bool_decide (threat o = name a2)) adjacent)
    by (intros o1 o2 (_ & ->); by rewrite Hn).
  destruct (scan_adjacent σ1 (λ o, bool_decide (name o = threat a1)) adjacent)
    as [[|]|]; simpl; [done| |constructor].
  destruct (scan_adjacent σ1 (λ o, bool_decide (threat o = name a1)) adjacent)
    as [[|]|]; simpl; [done| |constructor].
  constructor. by apply place_keys.
Qed.

End Keys.

Lemma for_state_keys states animals σ1 σ2 :
  same_decisions σ1 σ2 →
  option_Forall2 same_decisions
    (for_state states animals σ1) (for_state states animals σ2).
Proof.
  revert σ1 σ2. induction states as [|s rest IH]; intros σ1 σ2 Hsame; simpl.
  - by constructor.
  - destruct (for_animal_keys σ1 σ2 Hsame s animals) as [τ1 τ2 Hτ|]; simpl.
    + by apply IH.
    + constructor.
Qed.

Lemma run_keys h1 h2 animals σ1 σ2 :
  Forall2 same_keys h1 h2 →
  relocate_animals h1 animals = Some σ1 →
  relocate_animals h2 animals = Some σ2 →
  same_decisions σ1 σ2.
Proof.
  intros Hh Hrun1 Hrun2.
  assert (H0 : same_decisions (start h1) (start h2)) by by split.
  pose proof (for_state_keys VALID_STATES animals _ _ H0) as Hrel.
  unfold relocate_animals in Hrun1, Hrun2. rewrite Hrun1, Hrun2 in Hrel.
  by inversion Hrel.
Qed.

(** X13. The placement is decided by names and threats alone: two stores
    whose objects agree on name and threat, whatever their states and
    habitats at the call, get the same assignment and the same placed
    names. *)
Theorem entry_state_not_read h1 h2 animals :
  refs_ok h1 animals →
  Forall2 same_keys h1 h2 →
  ∃ σ1 σ2,
    relocate_animals h1 animals = Some σ1
    ∧ relocate_animals h2 animals = Some σ2
    ∧ occupied_states σ1 = occupied_states σ2
    ∧ placed_animals σ1 = placed_animals σ2.
Proof.
  intros Hrefs Hh.
  assert (Hrefs2 : refs_ok h2 animals).
  { unfold refs_ok in *. by rewrite <- (Forall2_length _ _ _ Hh). }
  destruct (relocate_animals_inv h1 animals Hrefs) as (σ1 & Hrun1 & _).
  destruct (relocate_animals_inv h2 animals Hrefs2) as (σ2 & Hrun2 & _).
  exists σ1, σ2. split; [done|]. split; [done|].
  by destruct (run_keys h1 h2 animals σ1 σ2 Hh Hrun1 Hrun2) as (_ & ? & ?).
Qed.

(** The three animals after an earlier relocation and a change of habitat. *)
Lemma three_animals_same_keys :
  Forall2 same_keys three_animals
    [ {| name := "Koala"; habitat := "Zoo"; threat := "Dingo"; state := "WA" |};
      {| name := "Dingo"; habitat := "Desert"; threat := ""; state := "WA" |};
      {| name := "Wombat"; habitat := "Burrow"; threat := ""; state := "ACT" |} ].
Proof. by repeat constructor. Defined.

Lemma entry_state_not_read_witness :
  refs_ok three_animals [0; 1; 2]
  ∧ Forall2 same_keys three_animals
      [ {| name := "Koala"; habitat := "Zoo"; threat := "Dingo"; state := "WA" |};
        {| name := "Dingo"; habitat := "Desert"; threat := ""; state := "WA" |};
        {| name := "Wombat"; habitat := "Burrow"; threat := ""; state := "ACT" |} ]
  ∧ ∃ σ1 σ2,
      relocate_animals three_animals [0; 1; 2] = Some σ1
      ∧ relocate_animals
          [ {| name := "Koala"; habitat := "Zoo"; threat := "Dingo"; state := "WA" |};
            {| name := "Dingo"; habitat := "Desert"; threat := ""; state := "WA" |};
            {| name := "Wombat"; habitat := "Burrow"; threat := ""; state := "ACT" |} ]
          [0; 1; 2] = Some σ2
      ∧ occupied_states σ1 = occupied_states σ2
      ∧ placed_animals σ1 = placed_animals σ2.
Proof.
  split; [exact three_animals_refs_ok|]. split; [exact three_animals_same_keys|].
  exact (entry_state_not_read _ _ [0; 1; 2]
           three_animals_refs_ok three_animals_same_keys).
Defined.

(** X14. Running the engine again on the store it left, with the same
    list and without resetting any state, changes nothing: the second run
    ends in the same store, the same assignment and the same placed
    names. *)
Theorem second_run_changes_nothing h animals :
  refs_ok h animals →
  ∃ σ, relocate_animals h animals = Some σ
       ∧ relocate_animals (heap σ) animals = Some σ.
Proof.
  intros Hrefs.
  destruct (relocate_animals_inv h animals Hrefs) as (σ & Hrun & Hinv).
  exists σ. split; [done|].
  assert (Hrefs' : refs_ok (heap σ) animals).
  { unfold refs_ok in *. by rewrite (inv_length _ _ _ _ Hinv). }
  destruct (relocate_animals_inv (heap σ) animals Hrefs') as (σ' & Hrun' & Hinv').
  rewrite Hrun'. f_equal.
  assert (Hkeys : Forall2 same_keys h (heap σ)).
  { apply Forall2_same_length_lookup_2; [by rewrite (inv_length _ _ _ _ Hinv)|].
    intros r a0 a Ha0 Ha.
    destruct (inv_identity _ _ _ _ Hinv r a Ha) as (b & Hb & (? & _ & ?)).
    assert (b = a0) as -> by congruence. by split. }
  destruct (run_keys h (heap σ) animals σ σ' Hkeys Hrun Hrun') as (_ & Hocc & Hpl).
  assert (Hheap : heap σ' = heap σ).
  { apply list_eq. intros r. destruct (heap σ' !! r) as [a'|] eqn:Ha'.
    - destruct (inv_state _ _ _ _ Hinv' r a' Ha') as [H0|Hoc]; [done|].
      rewrite <- Hocc in Hoc.
      destruct (inv_occupied _ _ _ _ Hinv _ _ Hoc) as (_ & a & Ha & Hst & _).
      destruct (inv_identity _ _ _ _ Hinv' r a' Ha') as (b & Hb & (? & ? & ?)).
      assert (b = a) as -> by congruence.
      rewrite Ha. f_equal. destruct a, a'. simpl in *. congruence.
    - symmetry. apply lookup_ge_None. rewrite <- (inv_length _ _ _ _ Hinv').
      by apply lookup_ge_None. }
  destruct σ, σ'. simpl in *. congruence.
Qed.

Lemma second_run_changes_nothing_witness :
  refs_ok three_animals [0; 1; 2]
  ∧ ∃ σ, relocate_animals three_animals [0; 1; 2] = Some σ
       ∧ relocate_animals (heap σ) [0; 1; 2] = Some σ.
Proof.
  split; [exact three_animals_refs_ok|].
  exact (second_run_changes_nothing three_animals [0; 1; 2] three_animals_refs_ok).
Defined.

(** ** Lists without threats *)



